(** * AI Foundry workshop notebooks: a shallow embedding of the glue code

    The notebooks of the workshop contain a small amount of hand-written
    logic around the vendor SDK calls: reading the environment, pulling the
    subscription identifier out of the project connection string, the scoped
    use of the embeddings sub-clients and the split of a DeepSeek-R1 answer
    into its reasoning and its final answer.  This file embeds that code and
    states the properties the specification gives for it. *)

From Stdlib Require Import NArith ZArith QArith_base Lia.
From stdpp Require Import base option list gmap strings.

Set Default Proof Using "Type".

(** ** Python values shared by all notebooks *)

(** A Python [str] is a sequence of Unicode code points. *)
Abbreviation char := N.
Abbreviation str := (list N).

(** ASCII literals of the source, as code points. *)
Definition lit (s : string) : str :=
  map (fun b => N.of_nat (Byte.to_nat b)) (String.list_byte_of_string s).

(** The exceptions the embedded code can raise or let through. *)
Inductive exn :=
| IndexError
| NameError
| SdkError (msg : str).

(** Outcome of a statement or call that may raise. *)
Inductive outcome (A : Type) :=
| Ok (a : A)
| Raise (e : exn).
Arguments Ok {A} a.
Arguments Raise {A} e.

(** [str.isspace] on one code point: the table of CPython's
    [_PyUnicode_IsWhitespace]. *)
Definition isspace (c : char) : bool :=
  ((9 <=? c) && (c <=? 13) || (28 <=? c) && (c <=? 32)
   || (c =? 133) || (c =? 160) || (c =? 5760)
   || (8192 <=? c) && (c <=? 8202)
   || (c =? 8232) || (c =? 8233) || (c =? 8239) || (c =? 8287)
   || (c =? 12288))%N.

(** [str.lstrip()], [str.rstrip()] and [str.strip()] without argument. *)
Fixpoint lstrip (s : str) : str :=
  match s with
  | [] => []
  | c :: s' => if isspace c then lstrip s' else s
  end.

Definition rstrip (s : str) : str := reverse (lstrip (reverse s)).

Definition strip (s : str) : str := rstrip (lstrip s).

(** [s.startswith(w)]. *)
Fixpoint startswith (w s : str) : bool :=
  match w, s with
  | [], _ => true
  | a :: w', c :: s' => (a =? c)%N && startswith w' s'
  | _ :: _, [] => false
  end.

(** [s.find(w)]: the lowest index at which [w] occurs, [None] for -1. *)
Fixpoint find (w s : str) : option nat :=
  if startswith w s then Some 0
  else match s with
       | [] => None
       | _ :: s' => S <$> find w s'
       end.

(** [s.split(sep)] for a separator of one character: one field per
    separator, plus one. *)
Fixpoint split (sep : char) (s : str) : list str :=
  match s with
  | [] => [[]]
  | c :: s' =>
      if (c =? sep)%N then [] :: split sep s'
      else match split sep s' with
           | f :: fs => (c :: f) :: fs
           | [] => [[c]]
           end
  end.

(** [sep.join(fields)]. *)
Fixpoint join (sep : char) (fields : list str) : str :=
  match fields with
  | [] => []
  | [f] => f
  | f :: fs => f ++ sep :: join sep fs
  end.

(** [xs[i]] for a Python list and an integer index: negative indices count
    from the end, anything out of range raises [IndexError]. *)
Definition getitem {A} (xs : list A) (i : Z) : outcome A :=
  let n := Z.of_nat (length xs) in
  let j := (if i <? 0 then i + n else i)%Z in
  if (j <? 0)%Z then Raise IndexError
  else match xs !! Z.to_nat j with
       | Some x => Ok x
       | None => Raise IndexError
       end.

(** ** The [re] calls of the DeepSeek notebook

    [re.search] is a backtracking matcher.  Only the constructs the
    notebook's pattern uses are embedded: literal characters, [.], the
    greedy and the lazy star of a single-character atom, concatenation and
    numbered capturing groups. *)
Module Re.

Inductive atom :=
| Chr (c : char)
| Dot.

Inductive regex :=
| Atom (a : atom)
| Seq (r1 r2 : regex)
| Star (greedy : bool) (a : atom)
| Group (i : nat) (r : regex).

(** A literal word [w] in a pattern is the sequence of its characters,
    followed by the rest [r] of the pattern. *)
Definition word (w : str) (r : regex) : regex :=
  foldr (fun c r' => Seq (Atom (Chr c)) r') r w.

(** Does atom [a] accept character [c]?  Without [re.DOTALL] the dot
    refuses the newline. *)
Definition accepts (dotall : bool) (a : atom) (c : char) : bool :=
  match a with
  | Chr c' => (c' =? c)%N
  | Dot => dotall || negb (c =? 10)%N
  end.

Section Matcher.
Context {A : Type}.
Variable dotall : bool.

(** [a*?]: hand over to the rest of the pattern first, consume one more
    character only when that fails. *)
Fixpoint star_lazy (a : atom) (k : str -> option A) (s : str) : option A :=
  match k s with
  | Some x => Some x
  | None =>
      match s with
      | c :: s' => if accepts dotall a c then star_lazy a k s' else None
      | [] => None
      end
  end.

(** [a*]: consume as much as possible, give characters back one by one
    while the rest of the pattern fails. *)
Fixpoint star_greedy (a : atom) (k : str -> option A) (s : str) : option A :=
  match s with
  | c :: s' =>
      if accepts dotall a c then
        match star_greedy a k s' with
        | Some x => Some x
        | None => k s
        end
      else k s
  | [] => k s
  end.

(** Match [r] at the start of [s], then continue with [k] on what is
    left and on the groups captured so far. *)
Fixpoint run (r : regex) (s : str) (caps : gmap nat str)
    (k : str -> gmap nat str -> option A) : option A :=
  match r with
  | Atom a =>
      match s with
      | c :: s' => if accepts dotall a c then k s' caps else None
      | [] => None
      end
  | Seq r1 r2 => run r1 s caps (fun s' caps' => run r2 s' caps' k)
  | Star greedy a =>
      (if greedy then star_greedy else star_lazy) a (fun s' => k s' caps) s
  | Group i r' =>
      run r' s caps
        (fun s' caps' => k s' (<[i := take (length s - length s') s]> caps'))
  end.
End Matcher.

(** [re.match]: the groups of the first successful way to match at the
    start of [s]. *)
Definition match_ (dotall : bool) (r : regex) (s : str) : option (gmap nat str) :=
  run dotall r s ∅ (fun _ caps => Some caps).

(** [re.search]: the first start position, from left to right, at which
    the pattern matches. *)
Fixpoint search (dotall : bool) (r : regex) (s : str) : option (gmap nat str) :=
  match match_ dotall r s with
  | Some m => Some m
  | None =>
      match s with
      | [] => None
      | _ :: s' => search dotall r s'
      end
  end.

(** [m.group(i)] of a group that took part in the match. *)
Definition group (m : gmap nat str) (i : nat) : str := default [] (m !! i).

End Re.

(** [outcome] is the exception monad of the embedded statements. *)
Global Instance outcome_ret : MRet outcome := fun _ a => Ok a.
Global Instance outcome_bind : MBind outcome := fun _ _ f m =>
  match m with
  | Ok a => f a
  | Raise e => Raise e
  end.

(** ** DeepSeek-R1 notebook: the completion invoker *)
Module DeepSeek.

Inductive message :=
| SystemMessage (content : str)
| UserMessage (content : str).

(** The keyword arguments of [client.complete]. *)
Record request := {
  messages : list message;
  model : option str;
  temperature : Q;
  max_tokens : Z
}.

(** [response.choices[i].message.content]. *)
Record choice := { message_content : str }.
Record response := { choices : list choice }.

(** What [plan_trip_with_reasoning] returns: a dict with the keys
    [thinking] and [answer], or the plain content. *)
Inductive value :=
| Dict (thinking answer : str)
| Str (content : str).

Definition open_marker : str := lit "<think>".
Definition close_marker : str := lit "</think>".

(** The pattern of the notebook: the opening marker, group 1 with a lazy
    star of the dot, the closing marker, group 2 with a greedy star of the
    dot. *)
Definition pattern : Re.regex :=
  Re.word open_marker
    (Re.Seq (Re.Group 1 (Re.Star false Re.Dot))
       (Re.word close_marker (Re.Group 2 (Re.Star true Re.Dot)))).

(** The split as the specification describes it, a plain string scan: the
    first opening marker, then the first closing marker after it; what lies
    between them, and what follows. *)
Definition scan (text : str) : option (str * str) :=
  i ← find open_marker text;
  let t := drop (i + 7) text in
  j ← find close_marker t;
  Some (take j t, drop (j + 8) t).

Section Invoker.
(** [client.complete], a remote call, and the [MODEL_NAME] read from the
    environment when the notebook started. *)
Variable complete : request -> outcome response.
Variable model_name : option str.

Definition plan_trip_with_reasoning (query : str) (show_thinking : bool)
  : outcome value :=
  let messages :=
    [ SystemMessage
        (lit "You are a travel expert. Provide detailed plans with rationale.");
      UserMessage
        (query ++ lit " Include hidden gems and safety considerations.") ] in
  response ← complete {| messages := messages; model := model_name;
                         temperature := (7 # 10)%Q; max_tokens := 1024 |};
  first ← getitem (choices response) 0;
  let content := message_content first in
  if show_thinking then
    match Re.search true pattern content with
    | Some m => Ok (Dict (strip (Re.group m 1)) (strip (Re.group m 2)))
    | None => Ok (Str content)
    end
  else Ok (Str content).

(** The remote call answers the request of [query] with a first choice
    whose content is [text]. *)
Definition responds (query text : str) : Prop :=
  ∃ rest,
    complete
      {| messages :=
           [ SystemMessage
               (lit "You are a travel expert. Provide detailed plans with rationale.");
             UserMessage
               (query ++ lit " Include hidden gems and safety considerations.") ];
         model := model_name; temperature := (7 # 10)%Q; max_tokens := 1024 |}
    = Ok {| choices := {| message_content := text |} :: rest |}.
End Invoker.

(** A client that answers every request with the one choice [text]. *)
Definition canned (text : str) : request -> outcome response :=
  fun _ => Ok {| choices := [ {| message_content := text |} ] |}.

(** [text] contains a complete marker pair: an opening marker and, after
    it, a closing marker. *)
Definition has_pair (text : str) : Prop :=
  ∃ A B C, text = A ++ open_marker ++ B ++ close_marker ++ C.

End DeepSeek.

(** ** The process environment

    [os.environ] is a dictionary from names to values; [load_dotenv] adds
    the entries of a [.env] file, when the file exists, without overriding
    what the process environment already defines. *)
Module Env.

Definition load_dotenv (dotenv : option (gmap str str)) (environ : gmap str str)
  : gmap str str :=
  environ ∪ default ∅ dotenv.

(** [os.getenv(name)]: [None] when the variable is not set. *)
Definition getenv (environ : gmap str str) (name : str) : option str :=
  environ !! name.

(** [os.environ.get(name, fallback)]. *)
Definition get (environ : gmap str str) (name fallback : str) : str :=
  default fallback (environ !! name).

(** A variable is absent at startup when neither the process environment
    nor the [.env] file defines it. *)
Definition absent (dotenv : option (gmap str str)) (environ : gmap str str)
    (name : str) : Prop :=
  environ !! name = None ∧ default ∅ dotenv !! name = None.

End Env.

(** ** 1-authentication notebook: the subscription of the connection string *)
Module Authentication.

(** What the cell does once the subscription id is known. *)
Inductive action :=
| SetSubscription (subscription_id : str)
| CouldNotGetSubscription.

(** [conn_str.split(';')[1] if conn_str else None]. *)
Definition subscription_id (conn_str : option str) : outcome (option str) :=
  match conn_str with
  | Some s =>
      if bool_decide (s ≠ []) then
        field ← getitem (split 59%N s) 1; Ok (Some field)
      else Ok None
  | None => Ok None
  end.

(** The rest of the cell: [az account set] on a non-empty subscription id,
    the warning otherwise. *)
Definition select_subscription (dotenv : option (gmap str str))
    (environ : gmap str str) : outcome action :=
  let environ := Env.load_dotenv dotenv environ in
  let conn_str := Env.getenv environ (lit "PROJECT_CONNECTION_STRING") in
  sub ← subscription_id conn_str;
  match sub with
  | Some (c :: s) => Ok (SetSubscription (c :: s))
  | _ => Ok CouldNotGetSubscription
  end.

End Authentication.

(** ** Environment loading of the embeddings and DeepSeek notebooks *)
Module Settings.

Record embeddings := {
  PROJECT_CONNECTION_STRING : str;
  TEXT_EMBEDDING_MODEL : str;
  IMAGE_EMBEDDING_MODEL : str
}.

(** First code cell of 2-embeddings, up to the construction of the
    project client: "Retrieve from environment or fallback". *)
Definition load_embeddings (dotenv : option (gmap str str))
    (environ : gmap str str) : outcome embeddings :=
  let environ := Env.load_dotenv dotenv environ in
  Ok {| PROJECT_CONNECTION_STRING :=
          Env.get environ (lit "PROJECT_CONNECTION_STRING")
            (lit "<your-connection-string>");
        TEXT_EMBEDDING_MODEL :=
          Env.get environ (lit "TEXT_EMBEDDING_MODEL")
            (lit "text-embedding-3-large");
        IMAGE_EMBEDDING_MODEL :=
          Env.get environ (lit "IMAGE_EMBEDDING_MODEL")
            (lit "Cohere-embed-v3-english") |}.

Record inference := {
  endpoint : option str;
  key : option str;
  model_name : option str
}.

(** First code cell of the DeepSeek notebook, up to the construction of
    the client: two [load_dotenv] calls, then three [os.getenv]. *)
Definition load_inference (parent_dotenv found_dotenv : option (gmap str str))
    (environ : gmap str str) : outcome inference :=
  let environ := Env.load_dotenv parent_dotenv environ in
  let environ := Env.load_dotenv found_dotenv environ in
  Ok {| endpoint := Env.getenv environ (lit "AZURE_INFERENCE_ENDPOINT");
        key := Env.getenv environ (lit "AZURE_INFERENCE_KEY");
        model_name := Env.getenv environ (lit "MODEL_NAME") |}.

End Settings.

(** ** 2-embeddings notebook: scoped use of the embeddings sub-clients

    The cells run in a small monad of exceptions, of the events a cell
    produces in the outside world, and of the counter that tells the client
    objects apart. *)
Module Embeddings.

Inductive sub_client := Chat | TextEmbeddings | ImageEmbeddings.

(** A client object: which sub-client it is, and which object. *)
Record handle := { kind : sub_client; ident : nat }.

(** A component of an embedding is an IEEE double, kept as its 64 bits:
    the cells only select components and print them. *)
Definition float := N.

Record item := { index : Z; embedding : list float }.

Inductive input :=
| TextInput (text : str)
| ImageInput (image_file image_format : str).

Inductive line :=
| Sentence (index : Z) (phrase : str) (len : nat)
    (sample : float * float * float * float)
| Image (index : Z) (len : nat) (snippet : float * float * float * float)
| ErrorEmbeddingText (e : exn)
| ErrorEmbeddingImage (e : exn).

Inductive event :=
| Entered (h : handle)
| Embed (h : handle) (model : str) (inputs : list input)
| Closed (h : handle)
| Printed (l : line).

(** One run of a computation: what it returned or raised, the counter of
    client objects afterwards, and the events it produced, in order. *)
Record run (A : Type) := {
  returned : outcome A;
  counter : nat;
  events : list event
}.
Arguments returned {A} r.
Arguments counter {A} r.
Arguments events {A} r.

Definition M (A : Type) : Type := nat -> run A.

(** Carry on after a run with [k], which sees how the run ended. *)
Definition resume {A B} (r : run A) (k : outcome A -> M B) : run B :=
  let r' := k (returned r) (counter r) in
  {| returned := returned r'; counter := counter r';
     events := events r ++ events r' |}.

Definition raise {A} (e : exn) : M A := fun n =>
  {| returned := Raise e; counter := n; events := [] |}.

Global Instance M_ret : MRet M := fun _ a n =>
  {| returned := Ok a; counter := n; events := [] |}.
Global Instance M_bind : MBind M := fun _ _ f m n =>
  resume (m n) (fun o => match o with Ok a => f a | Raise e => raise e end).

Definition lift {A} (o : outcome A) : M A := fun n =>
  {| returned := o; counter := n; events := [] |}.

Definition emit (e : event) : M unit := fun n =>
  {| returned := Ok tt; counter := n; events := [e] |}.

Definition print (l : line) : M unit := emit (Printed l).

(** A new client object. *)
Definition fresh (k : sub_client) : M handle := fun n =>
  {| returned := Ok {| kind := k; ident := n |}; counter := S n; events := [] |}.

(** [try: body except Exception as e: handler]. *)
Definition try_except {A} (body : M A) (handler : exn -> M A) : M A := fun n =>
  resume (body n) (fun o => match o with Ok a => mret a | Raise e => handler e end).

(** [for x in xs: body]. *)
Fixpoint for_each {A} (xs : list A) (body : A -> M unit) : M unit :=
  match xs with
  | [] => mret tt
  | x :: xs' => body x ;; for_each xs' body
  end.

(** Modelled from the spec: [__enter__] of a sub-client, a method of the
    SDK that is not part of the sources.  The client is acquired and
    handed to the body as it is. *)
Definition enter (h : handle) : M handle := emit (Entered h) ;; mret h.

(** Modelled from the spec: [__exit__] of a sub-client, a method of the
    SDK that is not part of the sources.  Section 4.2: the sub-client is
    released, its connection closed; nothing is returned, so an exception
    of the body is not suppressed. *)
Definition exit_ (h : handle) : M unit := emit (Closed h).

(** [with expr as target: body], as the language defines it: [__exit__]
    runs when the body returns and when it raises. *)
Definition with_ {A} (expr : M handle) (body : handle -> M A) : M A :=
  mgr ← expr;
  target ← enter mgr;
  ((fun n =>
      resume (body target n)
        (fun o => match o with
                  | Ok a => exit_ mgr ;; mret a
                  | Raise e => exit_ mgr ;; raise e
                  end)) : M A).

(** The first, second, second-to-last and last component that the cells
    print: [vec[0]], [vec[1]], [vec[-2]], [vec[-1]]. *)
Definition sample (vec : list float) : outcome (float * float * float * float) :=
  a ← getitem vec 0;
  b ← getitem vec 1;
  c ← getitem vec (-2);
  d ← getitem vec (-1);
  Ok (a, b, c, d).

Definition text_phrases : list str :=
  [ lit "An apple a day keeps the doctor away " ++ [127822%N];
    lit "Quick 15-minute HIIT workout routine " ++ [127947%N; 65039%N];
    lit "Mindful breathing exercises " ++ [129496%N] ].

Definition TEMPLATE_SYSTEM : str :=
  lit "You are HealthFitGPT, a fitness guidance model." ++ [10%N]
  ++ lit "Please focus on healthy advice and disclaim you're not a doctor."
  ++ [10%N; 10%N] ++ lit "User message:".

Section Notebook.
(** The settings of the first cell, and whether that cell bound
    [project_client]: it does not when the construction raised. *)
Variable settings : Settings.embeddings.
Variable project_client : bool.

(** The SDK calls, by their outcome: construction of a sub-client, the
    remote [embed] call, reading the image file. *)
Variable get_client : sub_client -> outcome unit.
Variable embed_reply : sub_client -> str -> list input -> outcome (list item).
Variable load_image : str -> str -> outcome input.

Definition get_sub_client (k : sub_client) : M handle :=
  if project_client then lift (get_client k) ;; fresh k
  else raise NameError.

Definition get_embeddings_client : M handle := get_sub_client TextEmbeddings.
Definition get_image_embeddings_client : M handle :=
  get_sub_client ImageEmbeddings.

Definition embed (h : handle) (model : str) (inputs : list input)
  : M (list item) :=
  emit (Embed h model inputs) ;; lift (embed_reply (kind h) model inputs).

(** Cell "2. Text Embeddings". *)
Definition embed_text_cell : M unit :=
  try_except
    (with_ get_embeddings_client (fun embed_client =>
       data ← embed embed_client (Settings.TEXT_EMBEDDING_MODEL settings)
                (TextInput <$> text_phrases);
       for_each data (fun item =>
         let vec := embedding item in
         sample_str ← lift (sample vec);
         phrase ← lift (getitem text_phrases (index item));
         print (Sentence (index item) phrase (length vec) sample_str))))
    (fun e => print (ErrorEmbeddingText e)).

(** Cell "3. Prompt Template Example". *)
Definition embed_with_template (user_text : str) : M (list float) :=
  let content := TEMPLATE_SYSTEM ++ lit " " ++ user_text in
  rsp ← with_ get_embeddings_client (fun embed_client =>
           embed embed_client (Settings.TEXT_EMBEDDING_MODEL settings)
             [TextInput content]);
  first ← lift (getitem rsp 0);
  mret (embedding first).

(** Cell "4. Image Embeddings". *)
Definition embed_image_cell : M unit :=
  try_except
    (with_ get_image_embeddings_client (fun img_embed_client =>
       img_input ← lift (load_image (lit "hand-xray.png") (lit "png"));
       resp ← embed img_embed_client (Settings.IMAGE_EMBEDDING_MODEL settings)
                [img_input];
       for_each resp (fun item =>
         let vec := embedding item in
         snippet ← lift (sample vec);
         print (Image (index item) (length vec) snippet))))
    (fun e => print (ErrorEmbeddingImage e)).
End Notebook.

(** The acquisitions and releases of a trace, in order. *)
Definition session_event (e : event) : bool :=
  match e with
  | Entered _ | Closed _ => true
  | _ => false
  end.

Definition sessions (t : list event) : list event := filter session_event t.

(** A computation that neither enters nor closes a client. *)
Definition quiet {A} (m : M A) : Prop := ∀ n, sessions (events (m n)) = [].

(** Does [get_sub_client] hand over a client? *)
Definition acquires (project_client : bool)
    (get_client : sub_client -> outcome unit) (k : sub_client) : bool :=
  project_client && (if get_client k is Ok _ then true else false).

(** One acquisition of [h] followed by one release of it. *)
Definition one_session (h : handle) : list event := [Entered h; Closed h].

End Embeddings.

(** ** Credential resolver

    The notebooks only construct [DefaultAzureCredential] and
    [AzureCliCredential]; the chain itself lives in the identity SDK. *)
Module Resolver.

(** Modelled from the spec: the token of section 3, an opaque bearer
    string plus expiry.  The SDK class is not part of the sources. *)
Record token := { bearer : str; expiry : Z }.

(** Modelled from the spec: the outcome of one strategy attempt of section
    4.1, which is not part of the sources: a token, or a
    strategy-specific error. *)
Inductive attempt_result :=
| Acquired (t : token)
| Failed (error : str).

(** Modelled from the spec: the credential attempt of section 3, which is
    not part of the sources: a strategy name and its executor.  Executors
    have no side effect beyond logging, so an executor is given by what
    its invocation produces. *)
Record strategy := { name : str; attempt : attempt_result }.

(** Modelled from the spec: what one [resolve()] call of section 4.1
    leaves behind; the resolver is not part of the sources.  [result] is
    the succeeding strategy with its token, or the aggregate error with
    one entry per failed strategy; [invoked] lists the strategies whose
    executor ran, in the order they ran; [logged] lists the failures that
    were logged. *)
Record resolution := {
  result : (str * token) + list (str * str);
  invoked : list str;
  logged : list (str * str)
}.

(** Modelled from the spec: the resolver loop of section 4.1 ("failures
    are logged (not raised) and the resolver advances to the next
    strategy", "no retries within a single strategy") with the attempt
    cursor of one call; the resolver is not part of the sources. *)
Fixpoint resolve_from (remaining : list strategy) (invoked : list str)
    (failures : list (str * str)) : resolution :=
  match remaining with
  | [] => {| result := inr failures; invoked := invoked; logged := failures |}
  | s :: rest =>
      match attempt s with
      | Acquired t =>
          {| result := inl (name s, t); invoked := invoked ++ [name s];
             logged := failures |}
      | Failed error =>
          resolve_from rest (invoked ++ [name s]) (failures ++ [(name s, error)])
      end
  end.

(** Modelled from the spec: [resolve()] of section 4.1 over a fixed,
    ordered list of strategies; the resolver is not part of the
    sources. *)
Definition resolve (strategies : list strategy) : resolution :=
  resolve_from strategies [] [].

Definition fails (s : strategy) : Prop := ∃ error, attempt s = Failed error.

(** [errors] holds, in order, the name and the error of each of the
    strategies. *)
Definition failures_of (strategies : list strategy)
    (errors : list (str * str)) : Prop :=
  Forall2 (fun s e => e.1 = name s ∧ attempt s = Failed e.2) strategies errors.

End Resolver.

(** ** Project client: connections

    2-environment_setup calls [client.connections.list]; the operation is
    implemented by the projects SDK and its service. *)
Module Project.

(** Modelled from the spec: the enumerated category of a connection
    (section 3), with the members the notebook names; the SDK enumeration
    is not part of the sources. *)
Inductive ConnectionType :=
| AZURE_OPEN_AI
| AZURE_AI_SEARCH
| AZURE_AI_SERVICES
| OtherType (category : str).

Global Instance ConnectionType_eq_dec : EqDecision ConnectionType.
Proof. solve_decision. Defined.

(** Modelled from the spec: the connection descriptor of section 3 (id,
    type, optional embedded credential); the SDK class is not part of the
    sources. *)
Record Connection := {
  id : str;
  connection_type : ConnectionType;
  credentials : option str
}.

(** Modelled from the spec: [list_connections(type_filter?)] of section
    4.2, which is not part of the sources: "returns all connections, or
    only those matching a requested type; produces an empty sequence (not
    an error) when no matches exist". *)
Fixpoint list_connections (registered : list Connection)
    (type_filter : option ConnectionType) : outcome (list Connection) :=
  match registered with
  | [] => Ok []
  | c :: rest =>
      found ← list_connections rest type_filter;
      match type_filter with
      | None => Ok (c :: found)
      | Some t =>
          if decide (connection_type c = t) then Ok (c :: found) else Ok found
      end
  end.

Definition matches (t : ConnectionType) (c : Connection) : Prop :=
  connection_type c = t.

Global Instance matches_dec t c : Decision (matches t c).
Proof. unfold matches. apply _. Defined.

End Project.

(** ** Further notions used by the properties of the notebooks *)

(** A string that neither starts nor ends with white space. *)
Definition trimmed (s : str) : Prop :=
  (∀ c, head s = Some c → isspace c = false)
  ∧ (∀ c, last s = Some c → isspace c = false).

(** The value a variable resolves to when several sources may define it:
    the first source, in the order given, that does. *)
Definition first_defined (candidates : list (option str)) : option str :=
  foldr (fun o later => if o is Some v then Some v else later) None candidates.

(** ** 2-environment_setup notebook: credential, client and connections

    The cells of the notebook share the names [credential] and [client]; a
    cell prints lines and may raise.  The SDK calls are taken by their
    outcome. *)
Module Setup.

Inductive line :=
| CredentialReady
| CredentialError (e : exn)
| ClientReady
| ClientError (e : exn)
| ListingAll (found : nat)
| ListingOpenAI (found : nat)
| ConnectionLine (c : Project.Connection)
| DefaultHeader
| ByNameHeader
| IdsHeader
| SearchNotFound
| SearchFound (conn_id : str)
| OpenAINotFound
| OpenAIFound (conn_id : str).

(** A cell body: the lines printed, and how the body ended. *)
Definition P (A : Type) : Type := (list line * outcome A)%type.

Global Instance P_ret : MRet P := fun _ a => ([], Ok a).
Global Instance P_bind : MBind P := fun _ _ f m =>
  match m with
  | (out, Ok a) => let '(out', r) := f a in (out ++ out', r)
  | (out, Raise e) => (out, Raise e)
  end.

Definition say (l : line) : P unit := ([l], Ok tt).
Definition call {A} (o : outcome A) : P A := ([], o).

(** [for x in xs: body]. *)
Fixpoint each {A} (xs : list A) (body : A -> P unit) : P unit :=
  match xs with
  | [] => mret tt
  | x :: xs' => body x ;; each xs' body
  end.

(** A global name of the notebook: unbound names raise [NameError]. *)
Definition name_ {A} (binding : option A) : outcome A :=
  if binding is Some a then Ok a else Raise NameError.

(** [search_conn_id] and [openai_conn_id] of the last cell. *)
Record ids := { search_conn_id : str; openai_conn_id : str }.

Section Cells.
Variables Credential Client : Type.

(** The SDK: the two constructors, the two connection operations of a
    client, and [str()] of a connection type. *)
Variable DefaultAzureCredential : outcome Credential.
Variable from_connection_string : option str -> Credential -> outcome Client.
Variable connections_list :
  Client -> option Project.ConnectionType -> outcome (list Project.Connection).
Variable connections_get_default :
  Client -> Project.ConnectionType -> bool -> outcome Project.Connection.
Variable render : Project.ConnectionType -> str.

(** The names bound so far. *)
Record names := { credential : option Credential; client : option Client }.

(** Cell "Azure Authentication Setup": the credential is bound when its
    construction succeeds; a failure is printed. *)
Definition credential_cell (ns : names) : names * P unit :=
  match DefaultAzureCredential with
  | Ok c => ({| credential := Some c; client := client ns |}, say CredentialReady)
  | Raise e => (ns, say (CredentialError e))
  end.

(** Cell "Initialize AI Project Client": [load_dotenv], then the
    construction inside [try]; the arguments are evaluated before the
    call. *)
Definition client_cell (dotenv : option (gmap str str)) (environ : gmap str str)
    (ns : names) : names * P unit :=
  let environ := Env.load_dotenv dotenv environ in
  let constructed :=
    let conn_str := Env.getenv environ (lit "PROJECT_CONNECTION_STRING") in
    cred ← name_ (credential ns);
    from_connection_string conn_str cred in
  match constructed with
  | Ok c => ({| credential := credential ns; client := Some c |}, say ClientReady)
  | Raise e => (ns, say (ClientError e))
  end.

(** Cell "Verify Access to Models and Connections". *)
Definition connections_cell (ns : names) : P unit :=
  c ← call (name_ (client ns));
  connections ← call (connections_list c None);
  say (ListingAll (length connections));;
  each connections (fun connection => say (ConnectionLine connection));;
  c ← call (name_ (client ns));
  connections ← call (connections_list c (Some Project.AZURE_OPEN_AI));
  say (ListingOpenAI (length connections));;
  each connections (fun connection => say (ConnectionLine connection));;
  c ← call (name_ (client ns));
  connection ← call (connections_get_default c Project.AZURE_AI_SERVICES true);
  say DefaultHeader;;
  say (ConnectionLine connection);;
  say ByNameHeader;;
  say (ConnectionLine connection).

(** [str(conn.connection_type).split('.')[-1]]. *)
Definition conn_type (conn : Project.Connection) : outcome str :=
  getitem (split 46%N (render (Project.connection_type conn))) (-1).

(** The loop of the last cell, from the ids found so far. *)
Fixpoint find_ids (conn_list : list Project.Connection) (found : ids)
  : outcome ids :=
  match conn_list with
  | [] => Ok found
  | conn :: rest =>
      t ← conn_type conn;
      find_ids rest
        (if decide (t = lit "AZURE_AI_SEARCH") then
           {| search_conn_id := Project.id conn;
              openai_conn_id := openai_conn_id found |}
         else if decide (t = lit "AZURE_OPEN_AI") then
           {| search_conn_id := search_conn_id found;
              openai_conn_id := Project.id conn |}
         else found)
  end.

(** Cell "Validate Model and Search Connections". *)
Definition validate_cell (ns : names) : P unit :=
  c ← call (name_ (client ns));
  conn_list ← call (connections_list c None);
  found ← call (find_ids conn_list {| search_conn_id := []; openai_conn_id := [] |});
  say IdsHeader;;
  (if decide (search_conn_id found = []) then say SearchNotFound
   else say (SearchFound (search_conn_id found)));;
  (if decide (openai_conn_id found = []) then say OpenAINotFound
   else say (OpenAIFound (openai_conn_id found))).

(** The member name of a connection's type: what follows the last dot of
    its rendering. *)
Definition type_name (conn : Project.Connection) : str :=
  default [] (last (split 46%N (render (Project.connection_type conn)))).

(** The id of the last connection of [conn_list] whose type has the member
    name [member]; the empty id when there is none. *)
Definition last_id (member : str) (conn_list : list Project.Connection) : str :=
  default [] (Project.id <$> last (filter (fun c => type_name c = member) conn_list)).
End Cells.

Arguments Build_names {Credential Client} credential client.
Arguments credential {Credential Client} n.
Arguments client {Credential Client} n.
Arguments credential_cell {Credential Client} DefaultAzureCredential ns.
Arguments client_cell {Credential Client} from_connection_string dotenv environ ns.
Arguments connections_cell {Credential Client} connections_list
  connections_get_default ns.
Arguments validate_cell {Credential Client} connections_list render ns.

End Setup.

(** ** 2-embeddings notebook: the first cell and runs of the later cells *)
Module EmbeddingsRun.

Inductive start_line :=
| Created
| ErrorCreating (e : exn).

(** Is a global name of the notebook bound? *)
Definition is_bound {A} (binding : option A) : bool :=
  if binding is Some _ then true else false.

Section Start.
Variables Credential Client : Type.

(** The SDK constructors, by their outcome. *)
Variable DefaultAzureCredential : outcome Credential.
Variable from_connection_string : Credential -> str -> outcome Client.

(** The [try] of the first cell: [project_client] is bound when the
    construction succeeds; a failure is printed.  The credential argument is
    evaluated first. *)
Definition create_project_client (settings : Settings.embeddings)
  : option Client * start_line :=
  match (cred ← DefaultAzureCredential;
         from_connection_string cred (Settings.PROJECT_CONNECTION_STRING settings)) with
  | Ok c => (Some c, Created)
  | Raise e => (None, ErrorCreating e)
  end.

(** The first cell: the settings, then the project client. *)
Definition first_cell (dotenv : option (gmap str str)) (environ : gmap str str)
  : outcome (Settings.embeddings * (option Client * start_line)) :=
  settings ← Settings.load_embeddings dotenv environ;
  Ok (settings, create_project_client settings).
End Start.

Arguments create_project_client {Credential Client} DefaultAzureCredential
  from_connection_string settings.
Arguments first_cell {Credential Client} DefaultAzureCredential
  from_connection_string dotenv environ.

(** What a user runs after the first cell: the text cell, a call of
    [embed_with_template], the image cell. *)
Inductive step :=
| TextCell
| TemplateCall (user_text : str)
| ImageCell.

Section Steps.
Variable settings : Settings.embeddings.
Variable project_client : bool.
Variable get_client : Embeddings.sub_client -> outcome unit.
Variable embed_reply :
  Embeddings.sub_client -> str -> list Embeddings.input
  -> outcome (list Embeddings.item).
Variable load_image : str -> str -> outcome Embeddings.input.

Definition run_step (s : step) : Embeddings.M unit :=
  match s with
  | TextCell =>
      Embeddings.embed_text_cell settings project_client get_client embed_reply
  | TemplateCall user_text =>
      Embeddings.embed_with_template settings project_client get_client
        embed_reply user_text ;; mret tt
  | ImageCell =>
      Embeddings.embed_image_cell settings project_client get_client embed_reply
        load_image
  end.

(** The steps in order, up to the first one that raises. *)
Definition run_steps (steps : list step) : Embeddings.M unit :=
  Embeddings.for_each steps run_step.
End Steps.

(** A computation that neither enters nor closes a client, and creates no
    client object either. *)
Definition inert {A} (m : Embeddings.M A) : Prop :=
  ∀ n, Embeddings.sessions (Embeddings.events (m n)) = []
       ∧ Embeddings.counter (m n) = n.

(** A computation whose sessions are complete, one after the other, each
    on a client object of its own: the objects [n], [n+1], ... when it
    starts with the counter at [n]. *)
Definition tidy {A} (m : Embeddings.M A) : Prop :=
  ∀ n, ∃ hs,
    Embeddings.sessions (Embeddings.events (m n)) = hs ≫= Embeddings.one_session
    ∧ Embeddings.ident <$> hs = seq n (length hs)
    ∧ Embeddings.counter (m n) = n + length hs.

(** The events of the body of a [with] block of the notebook: the request,
    and the lines printed for the items of the response. *)
Definition body_event (e : Embeddings.event) : Prop :=
  match e with
  | Embeddings.Embed _ _ _
  | Embeddings.Printed (Embeddings.Sentence _ _ _ _)
  | Embeddings.Printed (Embeddings.Image _ _ _) => True
  | _ => False
  end.

(** A computation all of whose events satisfy [P]. *)
Definition emits {A} (P : Embeddings.event -> Prop) (m : Embeddings.M A) : Prop :=
  ∀ n, Forall P (Embeddings.events (m n)).

(** The line that the text cell prints for an item. *)
Definition sentence_of (item : Embeddings.item) (l : Embeddings.line) : Prop :=
  ∃ phrase s,
    l = Embeddings.Sentence (Embeddings.index item) phrase
          (length (Embeddings.embedding item)) s
    ∧ getitem Embeddings.text_phrases (Embeddings.index item) = Ok phrase
    ∧ Embeddings.sample (Embeddings.embedding item) = Ok s.

(** An item the text cell can print: an embedding of two components or
    more, and an index into the three phrases, from either end. *)
Definition printable (item : Embeddings.item) : Prop :=
  2 ≤ length (Embeddings.embedding item)
  ∧ (-3 ≤ Embeddings.index item < 3)%Z.

End EmbeddingsRun.

(** ** DeepSeek-R1 notebook: technical problem solving *)
Module Technical.

(** The text that the f-string appends to the problem.  In the string
    literal of the source, backslash-b is the backspace character, and the
    doubled braces stand for single ones. *)
Definition instruction : str :=
  lit " Please reason step by step, and put your final answer within "
  ++ [8%N] ++ lit "oxed{}.".

Section Solver.
Variable complete : DeepSeek.request -> outcome DeepSeek.response.
Variable model_name : option str.

(** The keyword arguments of the call. *)
Definition request_of (problem : str) : DeepSeek.request :=
  {| DeepSeek.messages := [ DeepSeek.UserMessage (problem ++ instruction) ];
     DeepSeek.model := model_name;
     DeepSeek.temperature := (3 # 10)%Q;
     DeepSeek.max_tokens := 2048 |}.

Definition solve_technical_problem (problem : str) : outcome str :=
  response ← complete (request_of problem);
  first ← getitem (DeepSeek.choices response) 0;
  Ok (DeepSeek.message_content first).
End Solver.

(** The text of a message. *)
Definition content_of (m : DeepSeek.message) : str :=
  match m with
  | DeepSeek.SystemMessage c | DeepSeek.UserMessage c => c
  end.

End Technical.

(** ** Frontend: the theme provider of theme-provider.tsx

    The component keeps the chosen theme in its state, mirrors it in the
    class list of the root element, in the colour scheme of the body and in
    local storage, and follows the system preference while the theme is
    "system".  Strings are JavaScript strings, as their code units. *)
Module Theme.

(** The exceptions of [DOMTokenList.add]. *)
Inductive dom_error :=
| SyntaxError
| InvalidCharacterError.

(** ASCII white space, as the DOM standard defines it for tokens. *)
Definition ascii_whitespace (c : char) : bool :=
  ((c =? 9) || (c =? 10) || (c =? 12) || (c =? 13) || (c =? 32))%N.

(** [classList.add(token)] on the ordered set of tokens: an empty token and
    a token with white space are refused; a token already present is not
    added again. *)
Definition classList_add (tokens : list str) (token : str)
  : dom_error + list str :=
  if decide (token = []) then inl SyntaxError
  else if existsb ascii_whitespace token then inl InvalidCharacterError
  else inr (if decide (token ∈ tokens) then tokens else tokens ++ [token]).

(** [classList.remove(...)] with valid tokens. *)
Definition classList_remove (tokens removed : list str) : list str :=
  filter (fun t => t ∉ removed) tokens.

(** What the component reads and writes outside its own state. *)
Record page := {
  classList : list str;      (* window.document.documentElement.classList *)
  colorScheme : option str;  (* the value last assigned to
                                document.body.style.colorScheme *)
  storage : gmap str str;    (* localStorage *)
  prefers_dark : bool;       (* matchMedia("(prefers-color-scheme: dark)").matches *)
  listeners : nat            (* "change" listeners registered on the media query *)
}.

(** The initializer of [useState]: the saved theme, or the default when
    nothing, or the empty string, is saved. *)
Definition initial_theme (defaultTheme : str) (p : page) : str :=
  match storage p !! lit "theme" with
  | Some (c :: saved) => c :: saved
  | _ => defaultTheme
  end.

(** [handleChange], the listener of the media query; [matches] is
    [e.matches]. *)
Definition handleChange (matches : bool) (p : page) : page * option dom_error :=
  let tokens := classList_remove (classList p) [lit "light"; lit "dark"] in
  match classList_add tokens (if matches then lit "dark" else lit "light") with
  | inl e =>
      ({| classList := tokens; colorScheme := colorScheme p; storage := storage p;
          prefers_dark := prefers_dark p; listeners := listeners p |}, Some e)
  | inr tokens' =>
      ({| classList := tokens'; colorScheme := colorScheme p; storage := storage p;
          prefers_dark := prefers_dark p; listeners := listeners p |}, None)
  end.

(** The effect, run for the value [theme] of the state: the page as the
    effect leaves it, and the exception if one was thrown on the way. *)
Definition effect (theme : str) (p : page) : page * option dom_error :=
  let tokens := classList_remove (classList p) [lit "light"; lit "dark"] in
  let removed :=
    {| classList := tokens; colorScheme := colorScheme p; storage := storage p;
       prefers_dark := prefers_dark p; listeners := listeners p |} in
  if decide (theme = lit "system") then
    let systemTheme := if prefers_dark p then lit "dark" else lit "light" in
    match classList_add tokens systemTheme with
    | inl e => (removed, Some e)
    | inr tokens' =>
        ({| classList := tokens'; colorScheme := Some systemTheme;
            storage := <[lit "theme" := lit "system"]> (storage p);
            prefers_dark := prefers_dark p; listeners := S (listeners p) |}, None)
    end
  else
    match classList_add tokens theme with
    | inl e => (removed, Some e)
    | inr tokens' =>
        ({| classList := tokens'; colorScheme := Some theme;
            storage := <[lit "theme" := theme]> (storage p);
            prefers_dark := prefers_dark p; listeners := listeners p |}, None)
    end.

(** The cleanup that the effect returned for [theme]: it removes the
    listener that the "system" branch registered. *)
Definition cleanup (theme : str) (p : page) : page :=
  if decide (theme = lit "system") then
    {| classList := classList p; colorScheme := colorScheme p; storage := storage p;
       prefers_dark := prefers_dark p; listeners := pred (listeners p) |}
  else p.

(** The mounted component: its state and the page. *)
Record mounted := { theme : str; dom : page }.

(** Mounting: the state is initialized, then the effect runs. *)
Definition mount (defaultTheme : str) (p : page) : mounted * option dom_error :=
  let t := initial_theme defaultTheme p in
  let '(p', err) := effect t p in
  ({| theme := t; dom := p' |}, err).

(** [setTheme(t)]: nothing happens when the state already holds [t];
    otherwise the previous effect is cleaned up and the effect runs for
    [t]. *)
Definition setTheme (t : str) (m : mounted) : mounted * option dom_error :=
  if decide (t = theme m) then (m, None)
  else
    let '(p', err) := effect t (cleanup (theme m) (dom m)) in
    ({| theme := t; dom := p' |}, err).

(** Every registered listener runs. *)
Fixpoint notify (count : nat) (matches : bool) (p : page) : page * option dom_error :=
  match count with
  | 0 => (p, None)
  | S count' =>
      match handleChange matches p with
      | (p', None) => notify count' matches p'
      | (p', Some e) => (p', Some e)
      end
  end.

(** The system preference changes: the registered listeners run. *)
Definition media_change (matches : bool) (m : mounted) : mounted * option dom_error :=
  let p := {| classList := classList (dom m); colorScheme := colorScheme (dom m);
              storage := storage (dom m); prefers_dark := matches;
              listeners := listeners (dom m) |} in
  let '(p', err) := notify (listeners p) matches p in
  ({| theme := theme m; dom := p' |}, err).

(** The three values of the type [Theme]. *)
Inductive name := dark | light | system.

Definition text (t : name) : str :=
  match t with
  | dark => lit "dark"
  | light => lit "light"
  | system => lit "system"
  end.

(** The colour scheme that a theme stands for on a page. *)
Definition scheme (theme : str) (p : page) : str :=
  if decide (theme = lit "system")
  then (if prefers_dark p then lit "dark" else lit "light")
  else theme.

(** What a user and the system can do to the mounted component. *)
Inductive action :=
| SetTheme (t : name)
| MediaChange (matches : bool).

Definition step (a : action) (m : mounted) : mounted * option dom_error :=
  match a with
  | SetTheme t => setTheme (text t) m
  | MediaChange matches => media_change matches m
  end.

(** The actions in order, up to the first one that throws. *)
Fixpoint run (actions : list action) (m : mounted) : mounted * option dom_error :=
  match actions with
  | [] => (m, None)
  | a :: rest =>
      match step a m with
      | (m', None) => run rest m'
      | (m', Some e) => (m', Some e)
      end
  end.

(** The page mirrors the state: the class list holds the scheme of the
    theme and not the other scheme, local storage holds the theme, and a
    listener is registered exactly while the theme is "system". *)
Definition in_sync (m : mounted) : Prop :=
  (∃ t, theme m = text t)
  ∧ scheme (theme m) (dom m) ∈ classList (dom m)
  ∧ (∀ s, s ∈ [lit "light"; lit "dark"] → s ∈ classList (dom m) →
       s = scheme (theme m) (dom m))
  ∧ storage (dom m) !! lit "theme" = Some (theme m)
  ∧ listeners (dom m) = (if decide (theme m = lit "system") then 1 else 0).

End Theme.


(** * Properties *)

(** ** Strings *)
Section Strings.
Implicit Types (w s : str) (c : char).

Lemma startswith_prefix w s : startswith w s = true ↔ w `prefix_of` s.
Proof.
  revert s. induction w as [|a w IH]; intros [|c s]; simpl.
  - split; [intros _; apply prefix_nil | done].
  - split; [intros _; apply prefix_nil | done].
  - split; [done | intros H%prefix_nil_not; done].
  - rewrite andb_true_iff, N.eqb_eq, IH. split.
    + intros [-> H]. by apply prefix_cons.
    + intros H. split; [by eapply prefix_cons_inv_1 | by eapply prefix_cons_inv_2].
Qed.

Lemma startswith_app w s : startswith w (w ++ s) = true.
Proof. apply startswith_prefix. by apply prefix_app_r. Qed.

Lemma startswith_split w s :
  startswith w s = true → s = w ++ drop (length w) s.
Proof.
  intros [t ->]%startswith_prefix. by rewrite drop_app_length.
Qed.

Lemma startswith_cons_split a w c s :
  startswith (a :: w) (c :: s) = true → s = w ++ drop (length w) s.
Proof.
  simpl. intros [_ H]%andb_true_iff. by apply startswith_split.
Qed.

Lemma find_nil w : find w [] = if startswith w [] then Some 0 else None.
Proof. by destruct w. Qed.

Lemma find_cons w c s :
  find w (c :: s) = if startswith w (c :: s) then Some 0 else S <$> find w s.
Proof. by destruct w. Qed.

(** [find] returns an occurrence, and no occurrence starts before it. *)
Lemma find_Some w s i :
  find w s = Some i →
  startswith w (drop i s) = true ∧ ∀ j, j < i → startswith w (drop j s) = false.
Proof.
  revert i. induction s as [|c s IH]; intros i.
  - rewrite find_nil. destruct (startswith w []) eqn:E; [|done].
    intros [= <-]. split; [done | lia].
  - rewrite find_cons. destruct (startswith w (c :: s)) eqn:E.
    + intros [= <-]. split; [done | lia].
    + destruct (find w s) as [i'|] eqn:F; [|done]. intros [= <-].
      destruct (IH i' eq_refl) as [H1 H2]. split; [done|].
      intros [|j] Hj; [done|]. apply H2. lia.
Qed.

Lemma find_None w s :
  find w s = None ↔ ∀ j, startswith w (drop j s) = false.
Proof.
  induction s as [|c s IH].
  - rewrite find_nil. split.
    + destruct (startswith w []) eqn:E; [done|]. intros _ j. by rewrite drop_nil.
    + intros H. specialize (H 0). simpl in H. by rewrite H.
  - rewrite find_cons. split.
    + destruct (startswith w (c :: s)) eqn:E; [done|].
      destruct (find w s) eqn:F; [done|]. intros _ [|j]; [done|].
      by apply IH.
    + intros H. pose proof (H 0) as H0. simpl in H0. rewrite H0.
      replace (find w s) with (@None nat); [done|].
      symmetry. apply IH. intros j. apply (H (S j)).
Qed.

Lemma find_lt w s i : find w s = Some i → i + length w ≤ length s.
Proof.
  revert i. induction s as [|c s IH]; intros i.
  - rewrite find_nil. destruct (startswith w []) eqn:E; [|done].
    intros [= <-]. by destruct w.
  - rewrite find_cons. destruct (startswith w (c :: s)) eqn:E.
    + intros [= <-]. apply startswith_prefix, prefix_length in E. simpl in *. lia.
    + destruct (find w s) as [i'|] eqn:F; [|done]. intros [= <-].
      specialize (IH i' eq_refl). simpl. lia.
Qed.

(** The text around the occurrence that [find] returns. *)
Lemma find_occurrence w s i :
  find w s = Some i → s = take i s ++ w ++ drop (i + length w) s.
Proof.
  intros H. destruct (find_Some _ _ _ H) as [H1 _].
  apply startswith_split in H1. rewrite drop_drop in H1.
  rewrite <- H1. by rewrite take_drop.
Qed.

(** An occurrence anywhere makes [find] succeed, at or before it. *)
Lemma find_app w P Q : ∃ i, find w (P ++ w ++ Q) = Some i ∧ i ≤ length P.
Proof.
  destruct (find w (P ++ w ++ Q)) as [i|] eqn:F.
  - exists i. split; [done|]. destruct (decide (i ≤ length P)); [done|].
    destruct (find_Some _ _ _ F) as [_ H]. specialize (H (length P)).
    rewrite drop_app_length, startswith_app in H. discriminate H. lia.
  - rewrite find_None in F. specialize (F (length P)).
    by rewrite drop_app_length, startswith_app in F.
Qed.

(** Characters that differ from the first character of [w] are skipped. *)
Lemma find_skip a w u t :
  forallb (fun c => negb (a =? c)%N) u = true →
  find (a :: w) (u ++ t) = (fun i => length u + i) <$> find (a :: w) t.
Proof.
  induction u as [|c u IH]; simpl app; intros H.
  - by destruct (find (a :: w) t).
  - simpl in H. apply andb_true_iff in H as [H1 H2].
    rewrite find_cons. simpl startswith.
    apply negb_true_iff in H1. rewrite H1. simpl.
    rewrite IH by done. by destruct (find (a :: w) t).
Qed.

Lemma find_startswith w s : startswith w s = true → find w s = Some 0.
Proof. intros H. destruct s; [rewrite find_nil | rewrite find_cons]; by rewrite H. Qed.

Lemma find_is_Some w s : is_Some (find w s) ↔ ∃ P Q, s = P ++ w ++ Q.
Proof.
  split.
  - intros [i H]. exists (take i s), (drop (i + length w) s).
    by apply find_occurrence.
  - intros (P & Q & ->). destruct (find_app w P Q) as (i & -> & _). by eexists.
Qed.

(** A word whose first character does not come back inside it cannot
    start before, and run into, one of its own occurrences. *)
Lemma startswith_before a w X rest :
  forallb (fun c => negb (a =? c)%N) w = true →
  startswith w (X ++ a :: rest) = true → startswith w X = true.
Proof.
  revert X. induction w as [|b w IH]; intros X H; [done|].
  simpl in H. apply andb_true_iff in H as [H1 H2].
  destruct X as [|c X]; simpl.
  - apply negb_true_iff in H1. rewrite N.eqb_sym in H1. by rewrite H1.
  - intros [-> H]%andb_true_iff. simpl. by apply IH.
Qed.

Lemma find_app_first a w X Y :
  forallb (fun c => negb (a =? c)%N) w = true →
  find (a :: w) X = None →
  find (a :: w) (X ++ (a :: w) ++ Y) = Some (length X).
Proof.
  intros Hw HX. destruct (find_app (a :: w) X Y) as (i & F & Hi).
  rewrite F. f_equal. destruct (decide (i = length X)) as [|Hne]; [done|].
  exfalso. apply find_Some in F as [F _].
  rewrite find_None in HX. specialize (HX i).
  rewrite drop_app_le in F by lia.
  destruct (drop i X) as [|c X'] eqn:D.
  { apply (f_equal length) in D. rewrite length_drop in D. simpl in D. lia. }
  simpl in F, HX. apply andb_true_iff in F as [F1 F2].
  rewrite F1 in HX. simpl in HX.
  apply startswith_before in F2; [|done]. congruence.
Qed.

(** Stripping removes white space only: an occurrence of a word that
    starts and ends with other characters survives. *)
Lemma lstrip_occurrence a w P Q :
  isspace a = false → ∃ P', lstrip (P ++ (a :: w) ++ Q) = P' ++ (a :: w) ++ Q.
Proof.
  intros Ha. induction P as [|c P IH]; simpl.
  - exists []. by rewrite Ha.
  - destruct (isspace c); [done|]. by exists (c :: P).
Qed.

Lemma rstrip_occurrence w z P Q :
  isspace z = false → ∃ Q', rstrip (P ++ (w ++ [z]) ++ Q) = P ++ (w ++ [z]) ++ Q'.
Proof.
  intros Hz. unfold rstrip. rewrite !reverse_app. simpl.
  destruct (lstrip_occurrence z (reverse w) (reverse Q) (reverse P) Hz) as [Q' E].
  exists (reverse Q'). rewrite <- app_assoc. simpl in E |- *. rewrite E.
  rewrite reverse_app, reverse_cons, reverse_app, !reverse_involutive.
  by rewrite <- !app_assoc.
Qed.

Lemma strip_occurrence a w z P Q :
  isspace a = false → isspace z = false →
  ∀ m, m = a :: w → m = (removelast m) ++ [z] →
  ∃ P' Q', strip (P ++ m ++ Q) = P' ++ m ++ Q'.
Proof.
  intros Ha Hz m E1 E2. unfold strip.
  destruct (lstrip_occurrence a w P Q Ha) as [P' E]. rewrite E1, E, <- E1, E2.
  destruct (rstrip_occurrence (removelast m) z P' Q Hz) as [Q' E'].
  rewrite E'. by exists P', Q'.
Qed.

Lemma find_None_drop w s n : find w s = None → find w (drop n s) = None.
Proof.
  rewrite !find_None. intros H j. rewrite drop_drop. apply H.
Qed.

(** Nothing occurs in front of the occurrence that [find] returns. *)
Lemma find_take_None w s i : w ≠ [] → find w s = Some i → find w (take i s) = None.
Proof.
  intros Hw [_ Hmin]%find_Some. apply find_None. intros j.
  destruct (startswith w (drop j (take i s))) eqn:E; [exfalso | done].
  apply startswith_prefix in E.
  assert (j < i) as Hj.
  { apply prefix_length in E. rewrite length_drop, length_take in E.
    destruct w; [done | simpl in E; lia]. }
  specialize (Hmin j Hj).
  assert (startswith w (drop j s) = true) as E'; [|congruence].
  apply startswith_prefix. etrans; [exact E|].
  rewrite <- (drop_take_drop s j i) by lia. by apply prefix_app_r.
Qed.
End Strings.

(** ** The matcher on the notebook's pattern *)
Section Matcher.
Context {A : Type}.
Implicit Types (s w : str) (k : str → option A).

Lemma run_word dotall w r s caps (K : str → gmap nat str → option A) :
  Re.run dotall (Re.word w r) s caps K =
  if startswith w s then Re.run dotall r (drop (length w) s) caps K else None.
Proof.
  revert s. induction w as [|a w IH]; intros s; [done|].
  destruct s as [|c s]; [done|]. simpl.
  destruct (a =? c)%N; simpl; [apply IH | done].
Qed.

Lemma star_lazy_ext dotall a k k' s :
  (∀ t, k t = k' t) → Re.star_lazy dotall a k s = Re.star_lazy dotall a k' s.
Proof.
  intros E. induction s as [|c s IH]; simpl; rewrite E; [done|].
  by rewrite IH.
Qed.

Lemma star_greedy_ext dotall a k k' s :
  (∀ t, k t = k' t) → Re.star_greedy dotall a k s = Re.star_greedy dotall a k' s.
Proof.
  intros E. induction s as [|c s IH]; simpl; rewrite E; [done|].
  by rewrite IH.
Qed.

(** The greedy star of the dot under [DOTALL] takes the whole rest when
    the pattern may end there. *)
Lemma star_greedy_dot k s :
  is_Some (k []) → Re.star_greedy true Re.Dot k s = k [].
Proof.
  intros [x Hx]. induction s as [|c s IH]; [done|].
  simpl. by rewrite IH, Hx.
Qed.

(** The lazy star of the dot under [DOTALL], in front of a literal word,
    stops at the first occurrence of the word. *)
Lemma star_lazy_dot w (f : str → A) s :
  Re.star_lazy true Re.Dot (fun t => if startswith w t then Some (f t) else None) s
  = (fun j => f (drop j s)) <$> find w s.
Proof.
  induction s as [|c s IH].
  - by destruct w.
  - simpl Re.star_lazy. rewrite find_cons.
    destruct (startswith w (c :: s)); [done|].
    rewrite IH. by destruct (find w s).
Qed.
End Matcher.

Section Pattern.
Import DeepSeek.
Implicit Types (text s : str).

Lemma match_pattern s :
  Re.match_ true pattern s =
  if startswith open_marker s then
    (fun j => <[2 := drop (j + 8) (drop 7 s)]> (<[1 := take j (drop 7 s)]> ∅))
      <$> find close_marker (drop 7 s)
  else None.
Proof.
  unfold Re.match_, pattern. rewrite run_word.
  destruct (startswith open_marker s); [|done].
  change (length open_marker) with 7. set (t := drop 7 s).
  cbn [Re.run].
  erewrite star_lazy_ext; last first.
  { intros t'. rewrite run_word. change (length close_marker) with 8.
    cbn [Re.run]. rewrite star_greedy_dot by done.
    cbn [length]. rewrite Nat.sub_0_r, firstn_all. reflexivity. }
  rewrite (star_lazy_dot close_marker
    (fun t' => <[2 := drop 8 t']> (<[1 := take (length t - length t') t]> ∅))).
  destruct (find close_marker t) as [j|] eqn:F; [|done]. simpl.
  apply find_lt in F. rewrite drop_drop, length_drop.
  change (length close_marker) with 8 in F.
  by replace (length t - (length t - j)) with j by lia.
Qed.

Lemma search_without_close s :
  find close_marker s = None → Re.search true pattern s = None.
Proof.
  induction s as [|c s IH]; intros F.
  - done.
  - simpl Re.search. rewrite match_pattern.
    rewrite (find_None_drop _ _ 7 F).
    rewrite find_cons in F. destruct (startswith close_marker (c :: s)); [done|].
    destruct (find close_marker s); [done|].
    rewrite IH by done. by destruct (startswith open_marker (c :: s)).
Qed.

(** [re.search] with the notebook's pattern is the string scan. *)
Lemma search_scan text :
  Re.search true pattern text =
  (fun '(x, y) => <[2 := y]> (<[1 := x]> ∅)) <$> scan text.
Proof.
  unfold scan. induction text as [|c s IH].
  - done.
  - simpl Re.search. rewrite match_pattern, find_cons.
    destruct (startswith open_marker (c :: s)) eqn:E.
    + simpl. destruct (find close_marker (drop 6 s)) as [j|] eqn:F; [done|].
      simpl. apply search_without_close.
      apply (startswith_cons_split 60%N (lit "think>")) in E.
      change (length (lit "think>")) with 6 in E. rewrite E.
      change close_marker with (60%N :: lit "/think>") in *.
      rewrite find_skip by done. by rewrite F.
    + rewrite IH. by destruct (find open_marker s).
Qed.
End Pattern.

(** ** The completion invoker *)
Section Invoker.
Import DeepSeek.
Variable complete : request → outcome response.
Variable model_name : option str.
Implicit Types (query text : str) (show_thinking : bool).

Lemma scan_groups x y :
  Re.group (<[2 := y]> (<[1 := x]> ∅)) 1 = x ∧
  Re.group (<[2 := y]> (<[1 := x]> ∅)) 2 = y.
Proof.
  unfold Re.group. split.
  - rewrite lookup_insert_ne by done. by rewrite lookup_insert_eq.
  - by rewrite lookup_insert_eq.
Qed.

(** What the function returns once the remote call has answered. *)
Lemma plan_trip_content query text show_thinking :
  responds complete model_name query text →
  plan_trip_with_reasoning complete model_name query show_thinking =
  if show_thinking then
    match scan text with
    | Some (x, y) => Ok (Dict (strip x) (strip y))
    | None => Ok (Str text)
    end
  else Ok (Str text).
Proof.
  intros [rest H]. unfold plan_trip_with_reasoning. rewrite H.
  cbn [mbind outcome_bind getitem choices message_content].
  change (getitem _ 0) with (Ok {| message_content := text |}).
  cbn [mbind outcome_bind message_content].
  destruct show_thinking; [|done].
  rewrite search_scan. destruct (scan text) as [[x y]|]; [|done].
  cbn [fmap option_fmap option_map].
  by destruct (scan_groups x y) as [-> ->].
Qed.

Lemma has_pair_scan text : has_pair text ↔ is_Some (scan text).
Proof.
  unfold has_pair, scan. split.
  - intros (P & B & C & ->).
    destruct (find_app open_marker P (B ++ close_marker ++ C)) as (i & -> & Hi).
    cbn [mbind option_bind].
    replace (P ++ open_marker ++ B ++ close_marker ++ C)
      with ((P ++ open_marker ++ B) ++ close_marker ++ C)
      by (by rewrite <- !app_assoc).
    rewrite drop_app_le
      by (rewrite !length_app; change (length open_marker) with 7; lia).
    destruct (find_app close_marker (drop (i + 7) (P ++ open_marker ++ B)) C)
      as (j & -> & _).
    by eexists.
  - intros [[x y] H].
    destruct (find open_marker text) as [i|] eqn:F1; [|done].
    cbn [mbind option_bind] in H.
    destruct (find close_marker (drop (i + 7) text)) as [j|] eqn:F2; [|done].
    apply find_occurrence in F1, F2.
    change (length open_marker) with 7 in F1.
    eexists _, _, _. rewrite <- F2. exact F1.
Qed.

Lemma scan_first_pair P B C :
  find open_marker P = None → find close_marker B = None →
  scan (P ++ open_marker ++ B ++ close_marker ++ C) = Some (B, C).
Proof.
  intros HP HB. unfold scan.
  change open_marker with (60%N :: lit "think>") in *.
  rewrite find_app_first by done.
  cbn [mbind option_bind].
  replace (drop _ _) with (B ++ close_marker ++ C).
  2:{ change 7 with (length (60%N :: lit "think>")).
      rewrite <- length_app, (app_assoc P). by rewrite drop_app_length. }
  change close_marker with (60%N :: lit "/think>") in *.
  rewrite find_app_first by done.
  cbn [mbind option_bind]. rewrite take_app_length.
  change 8 with (length (60%N :: lit "/think>")).
  rewrite <- length_app, (app_assoc B). by rewrite drop_app_length.
Qed.
End Invoker.

Section InvokerProperties.
Import DeepSeek.
Implicit Types (complete : request → outcome response) (model_name : option str).
Implicit Types (query text : str) (show_thinking : bool).

(** C1, as stated, fails when the text between the first marker pair holds
    a closing marker of its own: for the response
    [<think>a</think>b</think>c], read as X = [a</think>b] and Y = [c],
    the split is not (X, Y). *)
Lemma reasoning_split_stated_fails :
  ¬ (∀ complete model_name query X Y,
       responds complete model_name query
         (open_marker ++ X ++ close_marker ++ Y) →
       plan_trip_with_reasoning complete model_name query true
       = Ok (Dict (strip X) (strip Y))).
Proof.
  intros H.
  specialize (H (canned (lit "<think>a</think>b</think>c")) None []
                (lit "a</think>b") (lit "c")).
  assert (plan_trip_with_reasoning (canned (lit "<think>a</think>b</think>c"))
            None [] true = Ok (Dict (lit "a") (lit "b</think>c"))) as E
    by (vm_compute; reflexivity).
  rewrite E in H. discriminate H. by exists [].
Qed.

(** C1 (amended): for every response text [<think>] ++ X ++ [</think>] ++ Y
    in which X holds no closing marker, the reasoning split returns
    thinking = strip(X) and answer = strip(Y); for every response text
    without a complete marker pair (an opening marker with no closing
    marker after it included) the whole text is returned as the answer,
    with no thinking segment and no error. *)
Theorem reasoning_split_amended complete model_name query :
  (∀ X Y,
     find close_marker X = None →
     responds complete model_name query
       (open_marker ++ X ++ close_marker ++ Y) →
     plan_trip_with_reasoning complete model_name query true
     = Ok (Dict (strip X) (strip Y)))
  ∧ (∀ text show_thinking,
       ¬ has_pair text →
       responds complete model_name query text →
       plan_trip_with_reasoning complete model_name query show_thinking
       = Ok (Str text)).
Proof.
  split.
  - intros X Y HX R. rewrite (plan_trip_content _ _ _ _ _ R).
    by rewrite (scan_first_pair [] X Y eq_refl HX
                  : scan (open_marker ++ X ++ close_marker ++ Y) = _).
  - intros text show_thinking Hno R. rewrite (plan_trip_content _ _ _ _ _ R).
    destruct show_thinking; [|done].
    destruct (scan text) as [[x y]|] eqn:E; [|done].
    destruct Hno. apply has_pair_scan. by rewrite E.
Qed.

Lemma reasoning_split_amended_witness :
  plan_trip_with_reasoning (canned (lit "<think> plan </think> go ")) None
    (lit "Kyoto") true = Ok (Dict (lit "plan") (lit "go"))
  ∧ plan_trip_with_reasoning (canned (lit "<think>no end")) None
      (lit "Kyoto") true = Ok (Str (lit "<think>no end")).
Proof.
  split.
  - apply (proj1 (reasoning_split_amended
                    (canned (lit "<think> plan </think> go ")) None (lit "Kyoto"))
             (lit " plan ") (lit " go ")).
    + vm_compute. reflexivity.
    + exists []. reflexivity.
  - apply (proj2 (reasoning_split_amended
                    (canned (lit "<think>no end")) None (lit "Kyoto"))).
    + intros H%has_pair_scan. vm_compute in H. destruct H as [? H]. discriminate H.
    + exists []. reflexivity.
Defined.

(** C9: with [show_thinking=False] the raw response content comes back
    unchanged as a plain string, marker pair or not; a dict with
    [thinking] and [answer] is only ever returned with
    [show_thinking=True]. *)
Theorem show_thinking_off_returns_content complete model_name query text :
  responds complete model_name query text →
  plan_trip_with_reasoning complete model_name query false = Ok (Str text)
  ∧ ∀ show_thinking thinking answer,
      plan_trip_with_reasoning complete model_name query show_thinking
      = Ok (Dict thinking answer) →
      show_thinking = true.
Proof.
  intros R. split.
  - by rewrite (plan_trip_content _ _ _ _ _ R).
  - intros show_thinking thinking answer.
    rewrite (plan_trip_content _ _ _ _ _ R). by destruct show_thinking.
Qed.

Lemma show_thinking_off_returns_content_witness :
  plan_trip_with_reasoning (canned (lit "<think>a</think>b")) None
    (lit "Kyoto") false = Ok (Str (lit "<think>a</think>b")).
Proof.
  apply (show_thinking_off_returns_content
           (canned (lit "<think>a</think>b")) None (lit "Kyoto")).
  exists []. reflexivity.
Defined.

(** The first marker pair of a text in which an opening marker is followed
    by two closing markers: nothing opens before it, nothing closes inside
    it, and a closing marker is left after it. *)
Lemma first_pair_of_two_closings text :
  (∃ A B C D,
     text = A ++ open_marker ++ B ++ close_marker ++ C ++ close_marker ++ D) →
  ∃ P T R,
    text = P ++ open_marker ++ T ++ close_marker ++ R
    ∧ find open_marker P = None
    ∧ find close_marker T = None
    ∧ is_Some (find close_marker R).
Proof.
  intros (A & B & C & D & ->).
  set (text := A ++ open_marker ++ B ++ close_marker ++ C ++ close_marker ++ D).
  destruct (find_app open_marker A (B ++ close_marker ++ C ++ close_marker ++ D))
    as (i & Fi & Hi). fold text in Fi.
  set (t := drop (i + 7) text).
  assert (t = drop (i + 7) (A ++ open_marker ++ B)
              ++ close_marker ++ C ++ close_marker ++ D) as Et.
  { unfold t, text.
    replace (A ++ open_marker ++ B ++ close_marker ++ C ++ close_marker ++ D)
      with ((A ++ open_marker ++ B) ++ close_marker ++ C ++ close_marker ++ D)
      by (by rewrite <- !app_assoc).
    apply drop_app_le. rewrite !length_app.
    change (length open_marker) with 7. lia. }
  destruct (find_app close_marker (drop (i + 7) (A ++ open_marker ++ B))
              (C ++ close_marker ++ D)) as (j & Fj & Hj).
  rewrite <- Et in Fj.
  exists (take i text), (take j t), (drop (j + 8) t).
  split; [|split; [|split]].
  - pose proof (find_occurrence _ _ _ Fi) as Ei.
    pose proof (find_occurrence _ _ _ Fj) as Ej.
    change (length open_marker) with 7 in Ei.
    change (length close_marker) with 8 in Ej.
    fold t in Ei. by rewrite <- Ej.
  - by apply find_take_None.
  - by apply find_take_None.
  - apply find_is_Some. rewrite Et.
    replace (drop (i + 7) (A ++ open_marker ++ B)
               ++ close_marker ++ C ++ close_marker ++ D)
      with ((drop (i + 7) (A ++ open_marker ++ B) ++ close_marker ++ C)
              ++ close_marker ++ D)
      by (by rewrite <- !app_assoc).
    rewrite drop_app_le
      by (rewrite !length_app; change (length close_marker) with 8; lia).
    by eexists _, _.
Qed.

(** The split at the first marker pair, and what stripping leaves of a
    later closing marker. *)
Lemma reasoning_split_first_pair complete model_name query P T R :
  find open_marker P = None →
  find close_marker T = None →
  is_Some (find close_marker R) →
  responds complete model_name query
    (P ++ open_marker ++ T ++ close_marker ++ R) →
  plan_trip_with_reasoning complete model_name query true
  = Ok (Dict (strip T) (strip R))
  ∧ is_Some (find close_marker (strip R)).
Proof.
  intros HP HT HR Hr. split.
  - rewrite (plan_trip_content _ _ _ _ _ Hr). by rewrite scan_first_pair.
  - apply find_is_Some in HR as (U & V & ->).
    destruct (strip_occurrence 60%N (lit "/think>") 62%N U V eq_refl eq_refl
                close_marker eq_refl eq_refl) as (U' & V' & ->).
    apply find_is_Some. by exists U', V'.
Qed.

(** C10: the split is not greedy.  For every response text in which an
    opening marker is followed by two or more closing markers, the thinking
    segment is the stripped text T strictly between the first opening marker
    and the first closing marker after it, and the answer is the stripped
    rest R of the text after that closing marker; R, and the answer, still
    hold the later closing marker. *)
Theorem reasoning_split_non_greedy complete model_name query text :
  (∃ A B C D,
     text = A ++ open_marker ++ B ++ close_marker ++ C ++ close_marker ++ D) →
  responds complete model_name query text →
  ∃ P T R,
    text = P ++ open_marker ++ T ++ close_marker ++ R
    ∧ find open_marker P = None
    ∧ find close_marker T = None
    ∧ is_Some (find close_marker R)
    ∧ plan_trip_with_reasoning complete model_name query true
      = Ok (Dict (strip T) (strip R))
    ∧ is_Some (find close_marker (strip R)).
Proof.
  intros H Hr.
  destruct (first_pair_of_two_closings text H) as (P & T & R & -> & HP & HT & HR).
  exists P, T, R. do 4 (split; [done|]).
  by apply (reasoning_split_first_pair _ _ _ P T R).
Qed.

Lemma reasoning_split_non_greedy_witness :
  ∃ P T R,
    lit "x<think> a </think> b</think>c " = P ++ open_marker ++ T ++ close_marker ++ R
    ∧ plan_trip_with_reasoning (canned (lit "x<think> a </think> b</think>c ")) None
        (lit "Kyoto") true = Ok (Dict (strip T) (strip R))
    ∧ is_Some (find close_marker (strip R)).
Proof.
  destruct (reasoning_split_non_greedy
              (canned (lit "x<think> a </think> b</think>c ")) None (lit "Kyoto")
              (lit "x<think> a </think> b</think>c "))
    as (P & T & R & E & _ & _ & _ & H1 & H2).
  - exists (lit "x"), (lit " a "), (lit " b"), (lit "c "). reflexivity.
  - exists []. reflexivity.
  - exists P, T, R. split; [exact E|]. split; [exact H1 | exact H2].
Defined.
End InvokerProperties.

(** Closed decidable facts are settled by evaluation. *)
Ltac by_decision := apply (bool_decide_unpack _); vm_compute; exact I.

(** ** The connection string *)
Section ConnectionString.
Implicit Types (sep c : char) (s f : str) (fields : list str).

Lemma split_nonempty sep s : split sep s ≠ [].
Proof.
  destruct s as [|c s]; simpl; [done|].
  destruct (c =? sep)%N; [done|]. by destruct (split sep s).
Qed.

Lemma split_app_sep sep f s :
  sep ∉ f → split sep (f ++ sep :: s) = f :: split sep s.
Proof.
  induction f as [|c f IH]; intros Hf; simpl.
  - by rewrite N.eqb_refl.
  - apply not_elem_of_cons in Hf as [Hc Hf].
    destruct (N.eqb_spec c sep) as [->|_]; [done|].
    by rewrite IH.
Qed.

Lemma split_no_sep sep f : sep ∉ f → split sep f = [f].
Proof.
  induction f as [|c f IH]; intros Hf; simpl; [done|].
  apply not_elem_of_cons in Hf as [Hc Hf].
  destruct (N.eqb_spec c sep) as [->|_]; [done|].
  by rewrite IH.
Qed.

(** [split] undoes [join] on fields that hold no separator. *)
Lemma split_join sep f fields :
  Forall (fun g => sep ∉ g) (f :: fields) →
  split sep (join sep (f :: fields)) = f :: fields.
Proof.
  revert f. induction fields as [|g fields IH]; intros f H.
  - apply Forall_cons in H as [H _]. by apply split_no_sep.
  - apply Forall_cons in H as [Hf H].
    change (join sep (f :: g :: fields)) with (f ++ sep :: join sep (g :: fields)).
    rewrite split_app_sep by done. by rewrite IH.
Qed.

(** A non-empty connection string without semicolon has one field only:
    index 1 is out of range. *)
Lemma subscription_id_no_semicolon s :
  s ≠ [] → 59%N ∉ s → Authentication.subscription_id (Some s) = Raise IndexError.
Proof.
  intros Hs Hsep. unfold Authentication.subscription_id.
  rewrite bool_decide_eq_true_2 by done. by rewrite split_no_sep.
Qed.

(** C2: the one place of the sources that takes a connection string apart
    raises [IndexError] on a non-empty string without semicolon, instead
    of reporting a configuration error. *)
Lemma malformed_connection_string_index_error :
  Authentication.subscription_id (Some (lit "abc")) = Raise IndexError
  ∧ Authentication.select_subscription None
      {[ lit "PROJECT_CONNECTION_STRING" := lit "abc" ]} = Raise IndexError
  ∧ Authentication.select_subscription None ∅
    = Ok Authentication.CouldNotGetSubscription.
Proof.
  split; [apply subscription_id_no_semicolon; by_decision|].
  split.
  - unfold Authentication.select_subscription, Env.getenv, Env.load_dotenv.
    simpl default. rewrite right_id_L by apply _.
    rewrite lookup_singleton_eq. reflexivity.
  - reflexivity.
Qed.

(** C4: in a connection string made of two or more semicolon-delimited
    fields, the subscription identifier is the field at index 1, whatever
    the other fields are. *)
Theorem subscription_id_second_field f0 f1 fields :
  Forall (fun g => 59%N ∉ g) (f0 :: f1 :: fields) →
  Authentication.subscription_id (Some (join 59%N (f0 :: f1 :: fields)))
  = Ok (Some f1)
  ∧ ∀ g0 others,
      Forall (fun g => 59%N ∉ g) (g0 :: others) →
      Authentication.subscription_id (Some (join 59%N (g0 :: f1 :: others)))
      = Authentication.subscription_id (Some (join 59%N (f0 :: f1 :: fields))).
Proof.
  assert (∀ h0 hs, Forall (fun g => 59%N ∉ g) (h0 :: f1 :: hs) →
            Authentication.subscription_id (Some (join 59%N (h0 :: f1 :: hs)))
            = Ok (Some f1)) as Hsecond.
  { intros h0 hs H. unfold Authentication.subscription_id.
    rewrite bool_decide_eq_true_2.
    - by rewrite split_join.
    - change (join 59%N (h0 :: f1 :: hs))
        with (h0 ++ 59%N :: join 59%N (f1 :: hs)).
      by destruct h0. }
  intros H. split; [by apply Hsecond|].
  intros g0 others Hg. rewrite !Hsecond; [done..|].
  apply Forall_cons in H as [_ [H1 _]%Forall_cons], Hg as [Hg0 Hgs].
  by repeat constructor.
Qed.

Lemma subscription_id_second_field_witness :
  Authentication.subscription_id
    (Some (lit "eastus.api.azureml.ms;0000-1111;my-rg;my-project"))
  = Ok (Some (lit "0000-1111")).
Proof.
  apply (subscription_id_second_field (lit "eastus.api.azureml.ms")
           (lit "0000-1111") [lit "my-rg"; lit "my-project"]).
  by_decision.
Defined.
End ConnectionString.

(** ** Environment loading *)
Section Environment.
Import Settings.
Implicit Types (dotenv : option (gmap (list N) (list N))) (environ : gmap (list N) (list N)).
Implicit Types (name : str).

Lemma load_dotenv_absent dotenv environ name :
  Env.absent dotenv environ name → Env.load_dotenv dotenv environ !! name = None.
Proof.
  intros [H1 H2]. unfold Env.load_dotenv. by apply lookup_union_None.
Qed.

Lemma load_dotenv_keeps_absent dotenv dotenv' environ name :
  Env.absent dotenv environ name → Env.absent dotenv' environ name →
  Env.absent dotenv' (Env.load_dotenv dotenv environ) name.
Proof.
  intros H [_ H2]. split; [by apply load_dotenv_absent | done].
Qed.

(** C3, as stated, fails: with nothing set at all, the environment-loading
    step of the embeddings notebook raises nothing. *)
Lemma absent_variable_raises_fails :
  ¬ (∀ dotenv environ name,
       name ∈ [lit "PROJECT_CONNECTION_STRING"; lit "TEXT_EMBEDDING_MODEL";
               lit "IMAGE_EMBEDDING_MODEL"] →
       Env.absent dotenv environ name →
       ∃ e, load_embeddings dotenv environ = Raise e).
Proof.
  intros H.
  destruct (H None ∅ (lit "PROJECT_CONNECTION_STRING")) as [e He].
  - apply list_elem_of_here.
  - split; apply lookup_empty.
  - discriminate He.
Qed.

(** C3 (amended): when a required variable is absent at startup, the
    environment-loading step reports nothing.  The embeddings notebook
    carries on with its fallback value for the variable, the DeepSeek
    notebook with [None]. *)
Theorem absent_variable_not_reported dotenv found_dotenv environ :
  (∃ s, load_embeddings dotenv environ = Ok s
     ∧ (Env.absent dotenv environ (lit "PROJECT_CONNECTION_STRING") →
        PROJECT_CONNECTION_STRING s = lit "<your-connection-string>")
     ∧ (Env.absent dotenv environ (lit "TEXT_EMBEDDING_MODEL") →
        TEXT_EMBEDDING_MODEL s = lit "text-embedding-3-large")
     ∧ (Env.absent dotenv environ (lit "IMAGE_EMBEDDING_MODEL") →
        IMAGE_EMBEDDING_MODEL s = lit "Cohere-embed-v3-english"))
  ∧ (∃ s, load_inference dotenv found_dotenv environ = Ok s
       ∧ (Env.absent dotenv environ (lit "AZURE_INFERENCE_ENDPOINT") →
          Env.absent found_dotenv environ (lit "AZURE_INFERENCE_ENDPOINT") →
          endpoint s = None)
       ∧ (Env.absent dotenv environ (lit "AZURE_INFERENCE_KEY") →
          Env.absent found_dotenv environ (lit "AZURE_INFERENCE_KEY") →
          key s = None)
       ∧ (Env.absent dotenv environ (lit "MODEL_NAME") →
          Env.absent found_dotenv environ (lit "MODEL_NAME") →
          model_name s = None)).
Proof.
  split.
  - eexists. split; [reflexivity|]. cbn [PROJECT_CONNECTION_STRING
      TEXT_EMBEDDING_MODEL IMAGE_EMBEDDING_MODEL]. unfold Env.get.
    repeat split; intros H; by rewrite (load_dotenv_absent _ _ _ H).
  - eexists. split; [reflexivity|]. cbn [endpoint key model_name].
    unfold Env.getenv.
    repeat split; intros H H';
      apply load_dotenv_absent; by apply load_dotenv_keeps_absent.
Qed.

Lemma absent_variable_not_reported_witness :
  load_embeddings None ∅
  = Ok {| PROJECT_CONNECTION_STRING := lit "<your-connection-string>";
          TEXT_EMBEDDING_MODEL := lit "text-embedding-3-large";
          IMAGE_EMBEDDING_MODEL := lit "Cohere-embed-v3-english" |}
  ∧ load_inference None None ∅
    = Ok {| endpoint := None; key := None; model_name := None |}.
Proof.
  assert (∀ name, Env.absent None ∅ name) as Habsent
    by (intros name; split; apply lookup_empty).
  destruct (absent_variable_not_reported None None ∅)
    as [(s & Es & H1 & H2 & H3) (i & Ei & H4 & H5 & H6)].
  split.
  - rewrite Es. destruct s as [a b c]. simpl in H1, H2, H3.
    by rewrite (H1 (Habsent _)), (H2 (Habsent _)), (H3 (Habsent _)).
  - rewrite Ei. destruct i as [a b c]. simpl in H4, H5, H6.
    by rewrite (H4 (Habsent _) (Habsent _)), (H5 (Habsent _) (Habsent _)),
         (H6 (Habsent _) (Habsent _)).
Defined.
End Environment.

(** ** Scoped sub-clients *)
Section Scoped.
Import Embeddings.
Implicit Types (n : nat) (h : handle) (e : exn).

Lemma sessions_app (t u : list event) : sessions (t ++ u) = sessions t ++ sessions u.
Proof. apply filter_app. Qed.

Lemma events_bind {A B} (m : M A) (f : A → M B) n :
  events ((m ≫= f) n) =
  events (m n) ++
  match returned (m n) with
  | Ok a => events (f a (counter (m n)))
  | Raise _ => []
  end.
Proof.
  unfold mbind, M_bind, resume. simpl. by destruct (returned (m n)).
Qed.

Lemma returned_bind {A B} (m : M A) (f : A → M B) n :
  returned ((m ≫= f) n) =
  match returned (m n) with
  | Ok a => returned (f a (counter (m n)))
  | Raise e => Raise e
  end.
Proof.
  unfold mbind, M_bind, resume. simpl. by destruct (returned (m n)).
Qed.

Lemma counter_bind {A B} (m : M A) (f : A → M B) n :
  counter ((m ≫= f) n) =
  match returned (m n) with
  | Ok a => counter (f a (counter (m n)))
  | Raise e => counter (m n)
  end.
Proof.
  unfold mbind, M_bind, resume. simpl. by destruct (returned (m n)).
Qed.

Lemma quiet_bind {A B} (m : M A) (f : A → M B) :
  quiet m → (∀ a, quiet (f a)) → quiet (m ≫= f).
Proof.
  intros Hm Hf n. rewrite events_bind, sessions_app, Hm.
  destruct (returned (m n)); [apply Hf | done].
Qed.

(** What follows a computation does not change its sessions when it is
    quiet itself. *)
Lemma sessions_bind_quiet {A B} (m : M A) (f : A → M B) n :
  (∀ a, quiet (f a)) → sessions (events ((m ≫= f) n)) = sessions (events (m n)).
Proof.
  intros Hf. rewrite events_bind, sessions_app.
  destruct (returned (m n)); [rewrite Hf|]; by rewrite app_nil_r.
Qed.

Lemma sessions_try_except {A} (body : M A) (handler : exn → M A) n :
  (∀ e, quiet (handler e)) →
  sessions (events (try_except body handler n)) = sessions (events (body n)).
Proof.
  intros Hh. unfold try_except, resume. simpl. rewrite sessions_app.
  destruct (returned (body n)); [|rewrite Hh]; by rewrite app_nil_r.
Qed.

(** The [with] statement: one release for the one acquisition, whether the
    body returns or raises; nothing when the client was never obtained. *)
Lemma sessions_with {A} (expr : M handle) (body : handle → M A) n :
  quiet expr → (∀ h, quiet (body h)) →
  sessions (events (with_ expr body n)) =
  match returned (expr n) with
  | Ok h => [Entered h; Closed h]
  | Raise _ => []
  end.
Proof.
  intros He Hb. unfold with_. rewrite events_bind, sessions_app, He.
  destruct (returned (expr n)) as [h|e]; [|done].
  cbv beta. rewrite events_bind. simpl. unfold resume. simpl.
  match goal with
  | |- sessions (Entered h :: ?t) = _ =>
      change (Entered h :: sessions t = [Entered h; Closed h])
  end.
  rewrite sessions_app, Hb.
  by destruct (returned (body h (counter (expr n)))).
Qed.
End Scoped.

Section Cells.
Import Embeddings.
Variable settings : Settings.embeddings.
Variable project_client : bool.
Variable get_client : sub_client → outcome unit.
Variable embed_reply : sub_client → str → list input → outcome (list item).
Variable load_image : str → str → outcome input.

Lemma quiet_lift {A} (o : outcome A) : quiet (lift o).
Proof. by intros n. Qed.

Lemma quiet_ret {A} (a : A) : quiet (mret a).
Proof. by intros n. Qed.

Lemma quiet_print l : quiet (print l).
Proof. by intros n. Qed.

Lemma quiet_for_each {A} (xs : list A) (body : A → M unit) :
  (∀ x, quiet (body x)) → quiet (for_each xs body).
Proof.
  intros Hb. induction xs as [|x xs IH]; [by intros n|].
  simpl. apply quiet_bind; [apply Hb | by intros _].
Qed.

Lemma quiet_embed h model inputs : quiet (embed embed_reply h model inputs).
Proof. by intros n. Qed.

Lemma quiet_get_sub_client k : quiet (get_sub_client project_client get_client k).
Proof.
  intros n. unfold get_sub_client. destruct project_client; [|done].
  rewrite events_bind. simpl. by destruct (get_client k).
Qed.

(** The client that [get_sub_client] hands over, if any, is a new object. *)
Lemma returned_get_sub_client k n :
  returned (get_sub_client project_client get_client k n) =
  if project_client then
    match get_client k with
    | Ok _ => Ok {| kind := k; ident := n |}
    | Raise e => Raise e
    end
  else Raise NameError.
Proof.
  unfold get_sub_client. destruct project_client; [|done].
  rewrite returned_bind. simpl. by destruct (get_client k).
Qed.
End Cells.

Create HintDb quiet.
#[global] Hint Resolve quiet_bind quiet_for_each quiet_lift quiet_ret quiet_print
  quiet_embed quiet_get_sub_client : quiet.

Section ScopedProperties.
Import Embeddings.
Variable settings : Settings.embeddings.
Variable project_client : bool.
Variable get_client : sub_client → outcome unit.
Variable embed_reply : sub_client → str → list input → outcome (list item).
Variable load_image : str → str → outcome input.

Lemma sessions_with_sub_client {A} k (body : handle → M A) n :
  (∀ h, quiet (body h)) →
  sessions (events (with_ (get_sub_client project_client get_client k) body n)) =
  if acquires project_client get_client k
  then one_session {| kind := k; ident := n |} else [].
Proof.
  intros Hb. rewrite sessions_with by auto with quiet.
  rewrite returned_get_sub_client. unfold acquires.
  destruct project_client; [|done]. by destruct (get_client k).
Qed.

(** C7: a sub-client obtained in a [with] statement is released exactly
    once for its one acquisition, whether the enclosed calls return or
    raise, and nothing is released when no client was obtained.  This
    holds for any sub-client (chat, embeddings, image embeddings) and any
    body that does not enter or close a client itself, and in particular
    for the three uses in the embeddings notebook, whatever the SDK calls
    return or raise. *)
Theorem sub_client_released_once :
  (∀ A k (body : handle → M A) n,
     (∀ h, quiet (body h)) →
     sessions (events (with_ (get_sub_client project_client get_client k) body n)) =
     if acquires project_client get_client k
     then one_session {| kind := k; ident := n |} else [])
  ∧ (∀ n,
       sessions (events (embed_text_cell settings project_client get_client
                           embed_reply n)) =
       if acquires project_client get_client TextEmbeddings
       then one_session {| kind := TextEmbeddings; ident := n |} else [])
  ∧ (∀ user_text n,
       sessions (events (embed_with_template settings project_client get_client
                           embed_reply user_text n)) =
       if acquires project_client get_client TextEmbeddings
       then one_session {| kind := TextEmbeddings; ident := n |} else [])
  ∧ (∀ n,
       sessions (events (embed_image_cell settings project_client get_client
                           embed_reply load_image n)) =
       if acquires project_client get_client ImageEmbeddings
       then one_session {| kind := ImageEmbeddings; ident := n |} else []).
Proof.
  split; [intros A k body n Hb; by apply sessions_with_sub_client|].
  split; [|split].
  - intros n. unfold embed_text_cell.
    rewrite sessions_try_except by auto with quiet.
    apply sessions_with_sub_client. intros h. cbv zeta. auto 10 with quiet.
  - intros user_text n. unfold embed_with_template. cbv zeta.
    rewrite sessions_bind_quiet by (intros rsp; auto with quiet).
    apply sessions_with_sub_client. auto with quiet.
  - intros n. unfold embed_image_cell.
    rewrite sessions_try_except by auto with quiet.
    apply sessions_with_sub_client. intros h. cbv zeta. auto 10 with quiet.
Qed.
End ScopedProperties.

Lemma sub_client_released_once_witness :
  Embeddings.sessions
    (Embeddings.events
       (Embeddings.with_
          (Embeddings.get_sub_client true (fun _ => Ok tt) Embeddings.Chat)
          (fun _ => Embeddings.raise IndexError : Embeddings.M unit) 0))
  = [Embeddings.Entered {| Embeddings.kind := Embeddings.Chat; Embeddings.ident := 0 |};
     Embeddings.Closed {| Embeddings.kind := Embeddings.Chat; Embeddings.ident := 0 |}].
Proof.
  apply (proj1 (sub_client_released_once
                  {| Settings.PROJECT_CONNECTION_STRING := [];
                     Settings.TEXT_EMBEDDING_MODEL := [];
                     Settings.IMAGE_EMBEDDING_MODEL := [] |}
                  true (fun _ => Ok tt) (fun _ _ _ => Raise IndexError)
                  (fun _ _ => Raise IndexError))
           unit Embeddings.Chat (fun _ => Embeddings.raise IndexError) 0).
  intros h n. reflexivity.
Defined.

(** ** Credential resolution *)
Section Resolution.
Import Resolver.
Implicit Types (s : strategy) (pre post strategies : list strategy).
Implicit Types (names : list (list N)) (failures errors : list (list N * list N)).

Lemma failures_of_names strategies errors :
  failures_of strategies errors → errors.*1 = name <$> strategies.
Proof.
  induction 1 as [|s e ? ? [H _] _ IH]; [done|]. simpl. by f_equal.
Qed.

Lemma resolve_from_all_fail strategies names failures :
  Forall fails strategies →
  ∃ errors, failures_of strategies errors ∧
    resolve_from strategies names failures =
    {| result := inr (failures ++ errors);
       invoked := names ++ (name <$> strategies);
       logged := failures ++ errors |}.
Proof.
  intros H. revert names failures.
  induction H as [|s strategies [error Hs] _ IH]; intros names failures.
  - exists []. split; [constructor|]. simpl. by rewrite !app_nil_r.
  - destruct (IH (names ++ [name s]) (failures ++ [(name s, error)]))
      as (errors & Herrors & E).
    exists ((name s, error) :: errors). split; [by constructor|].
    simpl. rewrite Hs, E. by rewrite <- !app_assoc.
Qed.

Lemma resolve_from_first_success pre s post t names failures :
  Forall fails pre → attempt s = Acquired t →
  ∃ errors, failures_of pre errors ∧
    resolve_from (pre ++ s :: post) names failures =
    {| result := inl (name s, t);
       invoked := names ++ (name <$> pre) ++ [name s];
       logged := failures ++ errors |}.
Proof.
  intros H Hs. revert names failures.
  induction H as [|s' pre [error Hs'] _ IH]; intros names failures.
  - exists []. split; [constructor|]. simpl. by rewrite Hs, app_nil_r.
  - destruct (IH (names ++ [name s']) (failures ++ [(name s', error)]))
      as (errors & Herrors & E).
    exists ((name s', error) :: errors). split; [by constructor|].
    simpl. rewrite Hs', E. by rewrite <- !app_assoc.
Qed.

(** A list in which some strategy succeeds splits at the first one that
    does. *)
Lemma first_success strategies :
  Exists (fun s => ∃ t, attempt s = Acquired t) strategies →
  ∃ pre s post t,
    strategies = pre ++ s :: post ∧ Forall fails pre ∧ attempt s = Acquired t.
Proof.
  induction strategies as [|s strategies IH]; intros H; [by inversion H|].
  destruct (attempt s) as [t|error] eqn:Hs.
  - by exists [], s, strategies, t.
  - apply Exists_cons in H as [[t Ht]|H]; [congruence|].
    destruct (IH H) as (pre & s' & post & t & -> & Hpre & Hs').
    exists (s :: pre), s', post, t. split; [done|]. split; [|done].
    constructor; [by exists error | done].
Qed.

(** C5: for every ordered list of strategies in which some strategy
    succeeds, the list splits into the strategies [pre] that fail, the first
    strategy [s] that succeeds, and the rest [post]; [resolve()] returns the
    token of [s], together with its name; the executors that ran are those
    of [pre] and of [s], each once, in priority order, and none of [post];
    the failures of [pre] were logged. *)
Theorem resolve_first_success strategies :
  Exists (fun s => ∃ t, attempt s = Acquired t) strategies →
  ∃ pre s post t,
    strategies = pre ++ s :: post
    ∧ Forall fails pre
    ∧ attempt s = Acquired t
    ∧ result (resolve strategies) = inl (name s, t)
    ∧ invoked (resolve strategies) = name <$> (pre ++ [s])
    ∧ failures_of pre (logged (resolve strategies)).
Proof.
  intros H. destruct (first_success strategies H)
    as (pre & s & post & t & -> & Hpre & Hs).
  exists pre, s, post, t. do 3 (split; [done|]). unfold resolve.
  destruct (resolve_from_first_success pre s post t [] [] Hpre Hs)
    as (errors & Herrors & ->).
  simpl. by rewrite fmap_app.
Qed.

(** C6: when every strategy fails, [resolve()] fails with an aggregate
    error that has one entry for each strategy of the list, in order,
    with the name of the strategy and its own error. *)
Theorem resolve_all_fail strategies :
  Forall fails strategies →
  ∃ errors,
    result (resolve strategies) = inr errors
    ∧ errors.*1 = name <$> strategies
    ∧ failures_of strategies errors
    ∧ invoked (resolve strategies) = name <$> strategies.
Proof.
  intros H. unfold resolve.
  destruct (resolve_from_all_fail strategies [] [] H) as (errors & Herrors & ->).
  exists errors. simpl. split; [done|]. split; [by apply failures_of_names|done].
Qed.
End Resolution.

Lemma resolve_first_success_witness :
  ∃ s t,
    Resolver.result
      (Resolver.resolve
         [ {| Resolver.name := lit "environment";
              Resolver.attempt := Resolver.Failed (lit "variables not set") |};
           {| Resolver.name := lit "cli";
              Resolver.attempt :=
                Resolver.Acquired {| Resolver.bearer := lit "abc"; Resolver.expiry := 3600 |} |};
           {| Resolver.name := lit "browser";
              Resolver.attempt :=
                Resolver.Acquired {| Resolver.bearer := lit "xyz"; Resolver.expiry := 60 |} |} ])
    = inl (Resolver.name s, t)
    ∧ Resolver.attempt s = Resolver.Acquired t.
Proof.
  destruct (resolve_first_success
              [ {| Resolver.name := lit "environment";
                   Resolver.attempt := Resolver.Failed (lit "variables not set") |};
                {| Resolver.name := lit "cli";
                   Resolver.attempt :=
                     Resolver.Acquired {| Resolver.bearer := lit "abc"; Resolver.expiry := 3600 |} |};
                {| Resolver.name := lit "browser";
                   Resolver.attempt :=
                     Resolver.Acquired {| Resolver.bearer := lit "xyz"; Resolver.expiry := 60 |} |} ])
    as (pre & s & post & t & _ & _ & Hs & H & _).
  - apply Exists_cons_tl, Exists_cons_hd. by eexists.
  - exists s, t. split; [exact H | exact Hs].
Defined.

Lemma resolve_all_fail_witness :
  ∃ errors,
    Resolver.result
      (Resolver.resolve
         [ {| Resolver.name := lit "environment";
              Resolver.attempt := Resolver.Failed (lit "variables not set") |};
           {| Resolver.name := lit "cli";
              Resolver.attempt := Resolver.Failed (lit "az not found") |} ])
    = inr errors
    ∧ errors.*1 = [lit "environment"; lit "cli"].
Proof.
  destruct (resolve_all_fail
              [ {| Resolver.name := lit "environment";
                   Resolver.attempt := Resolver.Failed (lit "variables not set") |};
                {| Resolver.name := lit "cli";
                   Resolver.attempt := Resolver.Failed (lit "az not found") |} ])
    as (errors & H1 & H2 & _).
  - repeat constructor; by eexists.
  - exists errors. split; [exact H1 | exact H2].
Defined.

(** ** Connections *)
Section Connections.
Import Project.
Implicit Types (registered found : list Connection) (t : ConnectionType).

Lemma list_connections_filter registered t :
  list_connections registered (Some t) = Ok (filter (matches t) registered).
Proof.
  induction registered as [|c registered IH]; [done|].
  simpl. rewrite IH. simpl. rewrite filter_cons.
  destruct (decide (connection_type c = t)) as [E|E].
  - by rewrite decide_True.
  - by rewrite decide_False.
Qed.

Lemma list_connections_all registered :
  list_connections registered None = Ok registered.
Proof.
  induction registered as [|c registered IH]; [done|]. simpl. by rewrite IH.
Qed.

(** C8: with a type filter, [list_connections] returns the connections of
    that type, in their registered order and nothing else; when no
    connection has the type the result is the empty sequence and no error;
    without filter it returns all the connections. *)
Theorem list_connections_by_type registered :
  (∀ t, ∃ found,
     list_connections registered (Some t) = Ok found
     ∧ found = filter (matches t) registered
     ∧ found `sublist_of` registered
     ∧ (∀ c, c ∈ found ↔ c ∈ registered ∧ connection_type c = t))
  ∧ (∀ t, Forall (fun c => connection_type c ≠ t) registered →
       list_connections registered (Some t) = Ok [])
  ∧ list_connections registered None = Ok registered.
Proof.
  split; [|split].
  - intros t. exists (filter (matches t) registered).
    split; [apply list_connections_filter|]. split; [done|].
    split; [apply sublist_filter|].
    intros c. rewrite list_elem_of_filter. unfold matches. tauto.
  - intros t H. rewrite list_connections_filter. f_equal.
    induction H as [|c registered Hc _ IH]; [done|].
    rewrite filter_cons_False by done. exact IH.
  - apply list_connections_all.
Qed.

Lemma list_connections_by_type_witness :
  list_connections
    [ {| id := lit "search-1"; connection_type := AZURE_AI_SEARCH;
         credentials := None |};
      {| id := lit "aoai-1"; connection_type := AZURE_OPEN_AI;
         credentials := None |} ]
    (Some AZURE_AI_SERVICES) = Ok [].
Proof.
  apply (proj1 (proj2 (list_connections_by_type
    [ {| id := lit "search-1"; connection_type := AZURE_AI_SEARCH;
         credentials := None |};
      {| id := lit "aoai-1"; connection_type := AZURE_OPEN_AI;
         credentials := None |} ]))).
  repeat constructor; discriminate.
Defined.
End Connections.

(** * Further properties of the notebooks *)

(** ** What [strip] leaves *)
Section Stripping.
Implicit Types (s t : str) (c : char).

Lemma lstrip_suffix s : ∃ ws, s = ws ++ lstrip s.
Proof.
  induction s as [|c s [ws IH]]; [by exists []|]. simpl.
  destruct (isspace c); [|by exists []].
  exists (c :: ws). simpl. by f_equal.
Qed.

Lemma lstrip_head s c : head (lstrip s) = Some c → isspace c = false.
Proof.
  induction s as [|c' s IH]; [done|]. simpl.
  destruct (isspace c') eqn:E; [done|]. simpl. by intros [= <-].
Qed.

Lemma rstrip_prefix s : ∃ ws, s = rstrip s ++ ws.
Proof.
  unfold rstrip. destruct (lstrip_suffix (reverse s)) as [ws E].
  exists (reverse ws). rewrite <- reverse_app, <- E. by rewrite reverse_involutive.
Qed.

Lemma rstrip_last s c : last (rstrip s) = Some c → isspace c = false.
Proof. unfold rstrip. rewrite last_reverse. apply lstrip_head. Qed.

Lemma rstrip_head s c : head (rstrip s) = Some c → head s = Some c.
Proof.
  destruct (rstrip_prefix s) as [ws E]. rewrite E at 2.
  by destruct (rstrip s).
Qed.

Lemma strip_trimmed s : trimmed (strip s).
Proof.
  unfold strip. split.
  - intros c H%rstrip_head. by apply lstrip_head in H.
  - apply rstrip_last.
Qed.

(** [strip] returns a piece of its argument. *)
Lemma strip_infix s : ∃ U V, s = U ++ strip s ++ V.
Proof.
  unfold strip. destruct (lstrip_suffix s) as [U E].
  destruct (rstrip_prefix (lstrip s)) as [V E'].
  exists U, V. by rewrite <- E', <- E.
Qed.

Lemma find_None_strip w s : find w s = None → find w (strip s) = None.
Proof.
  intros H. destruct (find w (strip s)) as [i|] eqn:F; [exfalso | done].
  destruct (strip_infix s) as (U & V & E).
  assert (is_Some (find w s)) as [? ?]; [|congruence].
  apply find_is_Some. assert (is_Some (find w (strip s))) as HS by by eexists.
  apply find_is_Some in HS as (P & Q & E'). rewrite E' in E.
  exists (U ++ P), (Q ++ V). rewrite E. by rewrite <- !app_assoc.
Qed.
End Stripping.

Lemma lstrip_of_head s : (∀ c, head s = Some c → isspace c = false) → lstrip s = s.
Proof.
  destruct s as [|c s]; [done|]. intros H. simpl. by rewrite (H c eq_refl).
Qed.

Lemma strip_of_trimmed s : trimmed s → strip s = s.
Proof.
  intros [Hh Hl]. unfold strip. rewrite (lstrip_of_head s Hh).
  unfold rstrip. rewrite lstrip_of_head; [apply reverse_involutive|].
  intros c. rewrite head_reverse. apply Hl.
Qed.

(** ** The completion invoker, for every response *)
Section InvokerMore.
Import DeepSeek.
Implicit Types (complete : request → outcome response) (model_name : option str).
Implicit Types (query text : str) (show_thinking : bool).

(** The two pieces of a successful scan, in the text. *)
Lemma scan_Some text x y :
  scan text = Some (x, y) →
  ∃ P, text = P ++ open_marker ++ x ++ close_marker ++ y
       ∧ find open_marker P = None ∧ find close_marker x = None.
Proof.
  unfold scan. destruct (find open_marker text) as [i|] eqn:Fi; [|done].
  cbn [mbind option_bind].
  destruct (find close_marker (drop (i + 7) text)) as [j|] eqn:Fj; [|done].
  cbn [mbind option_bind]. intros [= <- <-].
  exists (take i text). split; [|split].
  - pose proof (find_occurrence _ _ _ Fi) as Ei.
    pose proof (find_occurrence _ _ _ Fj) as Ej.
    change (length open_marker) with 7 in Ei.
    change (length close_marker) with 8 in Ej. by rewrite <- Ej.
  - by apply find_take_None.
  - by apply find_take_None.
Qed.



(** X2: whatever the remote call answers, the [thinking] and the [answer] of
    a returned dict neither start nor end with white space, and stripping
    them again changes nothing. *)
Theorem plan_trip_segments_trimmed complete model_name query show_thinking
    thinking answer :
  plan_trip_with_reasoning complete model_name query show_thinking
  = Ok (Dict thinking answer) →
  trimmed thinking ∧ trimmed answer
  ∧ strip thinking = thinking ∧ strip answer = answer.
Proof.
  unfold plan_trip_with_reasoning.
  destruct (complete _) as [resp|e]; [|done]. cbn [mbind outcome_bind].
  destruct (getitem (choices resp) 0) as [first|e]; [|done].
  cbn [mbind outcome_bind]. destruct show_thinking; [|done].
  destruct (Re.search true pattern (message_content first)) as [m|]; [|done].
  intros [= <- <-].
  split; [apply strip_trimmed|]. split; [apply strip_trimmed|].
  split; apply strip_of_trimmed, strip_trimmed.
Qed.

Lemma plan_trip_segments_trimmed_witness :
  trimmed (lit "plan") ∧ trimmed (lit "go")
  ∧ strip (lit "plan") = lit "plan" ∧ strip (lit "go") = lit "go".
Proof.
  apply (plan_trip_segments_trimmed
           (canned (lit "<think> plan </think> go ")) None (lit "Kyoto") true).
  vm_compute. reflexivity.
Defined.

(** X3: a returned dict is always the split at the first marker pair of the
    content: nothing opens before the pair, the text T inside it holds no
    closing marker, [thinking] is T stripped and [answer] is the stripped
    rest; so [thinking] never contains a closing marker. *)
Theorem plan_trip_dict_first_pair complete model_name query text show_thinking
    thinking answer :
  responds complete model_name query text →
  plan_trip_with_reasoning complete model_name query show_thinking
  = Ok (Dict thinking answer) →
  ∃ P T R,
    text = P ++ open_marker ++ T ++ close_marker ++ R
    ∧ find open_marker P = None
    ∧ find close_marker T = None
    ∧ thinking = strip T ∧ answer = strip R
    ∧ find close_marker thinking = None.
Proof.
  intros R. rewrite (plan_trip_content _ _ _ _ _ R).
  destruct show_thinking; [|done].
  destruct (scan text) as [[x y]|] eqn:E; [|done]. intros [= <- <-].
  destruct (scan_Some _ _ _ E) as (P & -> & HP & Hx).
  exists P, x, y. do 5 (split; [done|]). by apply find_None_strip.
Qed.

Lemma plan_trip_dict_first_pair_witness :
  ∃ P T R,
    lit "x<think> a </think> b</think>c " = P ++ open_marker ++ T ++ close_marker ++ R
    ∧ find open_marker P = None
    ∧ find close_marker T = None
    ∧ lit "a" = strip T ∧ lit "b</think>c" = strip R
    ∧ find close_marker (lit "a") = None.
Proof.
  apply (plan_trip_dict_first_pair
           (canned (lit "x<think> a </think> b</think>c ")) None (lit "Kyoto")
           (lit "x<think> a </think> b</think>c ") true).
  - exists []. reflexivity.
  - vm_compute. reflexivity.
Defined.
End InvokerMore.

(** ** The subscription cell of 1-authentication, for every environment *)
Section Subscription.
Implicit Types (sep c : char) (s f : str) (fields : list str).

Lemma join_cons_cons sep c f fields :
  join sep ((c :: f) :: fields) = c :: join sep (f :: fields).
Proof. by destruct fields. Qed.

(** [join] undoes [split]. *)
Lemma join_split sep s : join sep (split sep s) = s.
Proof.
  induction s as [|c s IH]; [done|]. simpl.
  pose proof (split_nonempty sep s) as Hne.
  destruct (split sep s) as [|f fields]; [done|].
  destruct (N.eqb_spec c sep) as [->|_].
  - change (join sep ([] :: f :: fields)) with (sep :: join sep (f :: fields)).
    by rewrite IH.
  - by rewrite join_cons_cons, IH.
Qed.

(** No field of a split holds the separator. *)
Lemma split_fields sep s : Forall (fun f => sep ∉ f) (split sep s).
Proof.
  induction s as [|c s IH]; simpl.
  - repeat constructor. by intros ?%elem_of_nil.
  - destruct (N.eqb_spec c sep) as [->|Hc].
    + constructor; [by intros ?%elem_of_nil | done].
    + destruct (split sep s) as [|f fields] eqn:E; [by apply split_nonempty in E|].
      apply Forall_cons in IH as [Hf Hfields]. constructor; [|done].
      by intros [?|?]%elem_of_cons.
Qed.

Lemma split_singleton sep s f : split sep s = [f] → sep ∉ s.
Proof.
  intros E. pose proof (join_split sep s) as J. rewrite E in J. simpl in J.
  subst f. pose proof (split_fields sep s) as H. rewrite E in H.
  by apply Forall_cons in H as [H _].
Qed.

Lemma getitem_one {A} (xs : list A) :
  getitem xs 1 = match xs with
                 | _ :: x :: _ => Ok x
                 | _ => Raise IndexError
                 end.
Proof. by destruct xs as [|? [|? ?]]. Qed.

(** The subscription id, by the shape of the connection string. *)
Lemma subscription_id_cases conn_str :
  match Authentication.subscription_id conn_str with
  | Raise e => e = IndexError ∧ ∃ s, conn_str = Some s ∧ s ≠ [] ∧ 59%N ∉ s
  | Ok None => conn_str = None ∨ conn_str = Some []
  | Ok (Some id) =>
      ∃ f0 rest, Forall (fun f => 59%N ∉ f) (f0 :: id :: rest)
                 ∧ conn_str = Some (join 59%N (f0 :: id :: rest))
  end.
Proof.
  destruct conn_str as [s|]; simpl; [|by left].
  destruct (decide (s = [])) as [->|Hs]; [by right|].
  rewrite bool_decide_eq_true_2 by done.
  rewrite getitem_one.
  pose proof (join_split 59%N s) as J. pose proof (split_fields 59%N s) as F.
  destruct (split 59%N s) as [|f0 [|id rest]] eqn:E; simpl.
  - by apply split_nonempty in E.
  - split; [done|]. exists s. split; [done|]. split; [done|].
    by apply (split_singleton _ _ f0).
  - exists f0, rest. split; [done|]. f_equal. symmetry. exact J.
Qed.
End Subscription.






(** ** 2-environment_setup: the cells *)
Section SetupCells.
Import Setup.
Context {Credential Client : Type}.
Variable DefaultAzureCredential : outcome Credential.
Variable from_connection_string : option str → Credential → outcome Client.
Variable connections_list :
  Client → option Project.ConnectionType → outcome (list Project.Connection).
Variable connections_get_default :
  Client → Project.ConnectionType → bool → outcome Project.Connection.
Variable render : Project.ConnectionType → str.

Lemma getitem_last {A} (xs : list A) :
  getitem xs (-1) = if last xs is Some x then Ok x else Raise IndexError.
Proof.
  induction xs as [|x xs _] using rev_ind; [done|].
  unfold getitem. rewrite last_snoc, length_app. simpl.
  replace (-1 + Z.of_nat (length xs + 1))%Z with (Z.of_nat (length xs)) by lia.
  destruct (Z.ltb_spec (Z.of_nat (length xs)) 0); [lia|].
  rewrite Nat2Z.id. by rewrite list_lookup_middle.
Qed.

(** What follows the last separator of a string is the last field of its
    split. *)
Lemma split_last sep s :
  ∃ p n, last (split sep s) = Some n ∧ s = p ++ n ∧ (sep ∉ n)
         ∧ (p = [] ∨ last p = Some sep).
Proof.
  induction s as [|c s (p & n & Hlast & Hs & Hn & Hp)].
  - exists [], []. split; [done|]. split; [done|].
    split; [by intros ?%elem_of_nil | by left].
  - simpl. destruct (N.eqb_spec c sep) as [->|Hc].
    + exists (sep :: p), n. split; [|split; [|split]].
      * destruct (split sep s); [done|]. exact Hlast.
      * by rewrite Hs.
      * done.
      * right. destruct Hp as [->|Hp]; [done|]. by rewrite last_cons, Hp.
    + destruct (split sep s) as [|f [|g fields]] eqn:E; [done| |].
      * pose proof (join_split sep s) as J. rewrite E in J. simpl in J. subst f.
        apply split_singleton in E.
        exists [], (c :: s). split; [done|]. split; [done|].
        split; [|by left]. by intros [?|?]%elem_of_cons.
      * exists (c :: p), n. split; [exact Hlast|]. split; [by rewrite Hs|].
        split; [done|]. right. destruct Hp as [->|Hp]; [|by rewrite last_cons, Hp].
        simpl in Hs. subst n. by rewrite split_no_sep in E.
Qed.

Lemma conn_type_type_name conn :
  conn_type render conn = Ok (type_name render conn).
Proof.
  unfold conn_type, type_name. rewrite getitem_last.
  destruct (split_last 46%N (render (Project.connection_type conn)))
    as (p & n & -> & _). done.
Qed.

(** X7: the type name that the last cell compares never fails to extract,
    whatever [str()] of the connection type looks like: it is the part of
    the rendering after its last dot (the whole rendering when there is no
    dot), and it holds no dot. *)
Theorem conn_type_last_component conn :
  ∃ p n, render (Project.connection_type conn) = p ++ n
         ∧ (46%N ∉ n)
         ∧ (p = [] ∨ last p = Some 46%N)
         ∧ conn_type render conn = Ok n.
Proof.
  destruct (split_last 46%N (render (Project.connection_type conn)))
    as (p & n & Hlast & Hs & Hn & Hp).
  exists p, n. do 3 (split; [done|]).
  unfold conn_type. by rewrite getitem_last, Hlast.
Qed.

Lemma last_filter_cons {A} (P : A → Prop) `{∀ x, Decision (P x)} x l d :
  default d (last (filter P (x :: l)))
  = default (if decide (P x) then x else d) (last (filter P l)).
Proof.
  rewrite filter_cons. destruct (decide (P x)); [|done].
  rewrite last_cons. by destruct (last (filter P l)).
Qed.

Lemma filter_none {A} (P : A → Prop) `{∀ x, Decision (P x)} l :
  Forall (fun x => ¬ P x) l → filter P l = [].
Proof.
  induction 1 as [|x l Hx _ IH]; [done|]. by rewrite filter_cons_False.
Qed.

Lemma last_filter_split {A} (P : A → Prop) `{∀ x, Decision (P x)} front x back :
  P x → Forall (fun y => ¬ P y) back →
  last (filter P (front ++ x :: back)) = Some x.
Proof.
  intros Hx Hback. rewrite filter_app, filter_cons_True by done.
  rewrite (filter_none P back Hback). by rewrite last_snoc.
Qed.

(** The loop keeps, for each of the two type names, the id of the last
    connection seen with that type name. *)
Lemma find_ids_fold conn_list found :
  find_ids render conn_list found
  = Ok {| search_conn_id :=
            default (search_conn_id found)
              (Project.id <$>
                 last (filter (fun c => type_name render c = lit "AZURE_AI_SEARCH")
                         conn_list));
          openai_conn_id :=
            default (openai_conn_id found)
              (Project.id <$>
                 last (filter (fun c => type_name render c = lit "AZURE_OPEN_AI")
                         conn_list)) |}.
Proof.
  revert found. induction conn_list as [|conn rest IH]; intros found.
  - by destruct found.
  - cbn [find_ids]. rewrite conn_type_type_name. cbn [mbind outcome_bind].
    rewrite IH. f_equal.
    rewrite !filter_cons.
    destruct (decide (type_name render conn = lit "AZURE_AI_SEARCH")) as [E|E].
    + assert (type_name render conn ≠ lit "AZURE_OPEN_AI") as E'.
      { rewrite E. by_decision. }
      destruct (decide (type_name render conn = lit "AZURE_OPEN_AI")); [done|].
      cbn [search_conn_id openai_conn_id]. f_equal.
      rewrite last_cons. by destruct (last (filter _ rest)).
    + destruct (decide (type_name render conn = lit "AZURE_OPEN_AI")) as [E'|E'];
        cbn [search_conn_id openai_conn_id]; f_equal.
      rewrite last_cons.
      by destruct (last (filter (fun c => type_name render c = lit "AZURE_OPEN_AI") rest)).
Qed.

(** X8: the ids that the last cell reports are [last_id]: for each of the
    two type names, the id of the last listed connection whose type has
    that name, and the empty id when no listed connection has it; earlier
    connections of the same type and connections of other types do not
    count. *)
Theorem find_ids_last_match conn_list :
  find_ids render conn_list {| search_conn_id := []; openai_conn_id := [] |}
  = Ok {| search_conn_id := last_id render (lit "AZURE_AI_SEARCH") conn_list;
          openai_conn_id := last_id render (lit "AZURE_OPEN_AI") conn_list |}
  ∧ ∀ member,
      (Forall (fun c => type_name render c ≠ member) conn_list →
       last_id render member conn_list = [])
      ∧ (∀ front conn back,
           conn_list = front ++ conn :: back →
           type_name render conn = member →
           Forall (fun c => type_name render c ≠ member) back →
           last_id render member conn_list = Project.id conn).
Proof.
  split; [apply find_ids_fold|]. intros member. unfold last_id. split.
  - intros H. by rewrite filter_none.
  - intros front conn back -> Hc Hback. by rewrite last_filter_split.
Qed.


End SetupCells.

Lemma find_ids_last_match_witness :
  Setup.last_id (fun _ => lit "ConnectionType.AZURE_AI_SEARCH") (lit "AZURE_AI_SEARCH")
    [ {| Project.id := lit "first"; Project.connection_type := Project.AZURE_AI_SEARCH;
         Project.credentials := None |};
      {| Project.id := lit "second"; Project.connection_type := Project.AZURE_AI_SEARCH;
         Project.credentials := None |} ]
  = lit "second".
Proof.
  apply (proj2 (proj2 (find_ids_last_match
                         (fun _ => lit "ConnectionType.AZURE_AI_SEARCH")
                         [ {| Project.id := lit "first";
                              Project.connection_type := Project.AZURE_AI_SEARCH;
                              Project.credentials := None |};
                           {| Project.id := lit "second";
                              Project.connection_type := Project.AZURE_AI_SEARCH;
                              Project.credentials := None |} ])
                       (lit "AZURE_AI_SEARCH"))
           [ {| Project.id := lit "first";
                Project.connection_type := Project.AZURE_AI_SEARCH;
                Project.credentials := None |} ]
           {| Project.id := lit "second";
              Project.connection_type := Project.AZURE_AI_SEARCH;
              Project.credentials := None |} []).
  - reflexivity.
  - vm_compute. reflexivity.
  - constructor.
Defined.



(** ** 2-embeddings: what the cells print, and runs of several cells *)
Section Items.
Implicit Types (vec : list Embeddings.float) (i : Z).

(** [xs[i]] is defined exactly on the indices from [-len(xs)] to
    [len(xs) - 1]. *)
Lemma getitem_in_range {A} (xs : list A) i :
  (- Z.of_nat (length xs) ≤ i < Z.of_nat (length xs))%Z →
  ∃ x, getitem xs i = Ok x
       ∧ xs !! Z.to_nat (if (i <? 0)%Z then i + Z.of_nat (length xs) else i)%Z = Some x.
Proof.
  intros H. unfold getitem.
  set (j := (if (i <? 0)%Z then i + Z.of_nat (length xs) else i)%Z).
  assert (0 ≤ j < Z.of_nat (length xs))%Z as Hj.
  { unfold j. destruct (Z.ltb_spec i 0); lia. }
  destruct (Z.ltb_spec j 0); [lia|].
  destruct (xs !! Z.to_nat j) as [x|] eqn:E; [by exists x|].
  apply lookup_ge_None in E. lia.
Qed.

Lemma getitem_out_of_range {A} (xs : list A) i :
  ¬ (- Z.of_nat (length xs) ≤ i < Z.of_nat (length xs))%Z →
  getitem xs i = Raise IndexError.
Proof.
  intros H. unfold getitem.
  set (j := (if (i <? 0)%Z then i + Z.of_nat (length xs) else i)%Z).
  destruct (Z.ltb_spec j 0); [done|].
  destruct (xs !! Z.to_nat j) as [x|] eqn:E; [|done].
  apply lookup_lt_Some in E. unfold j in *. destruct (Z.ltb_spec i 0); lia.
Qed.

(** X11: the four components that the cells print exist exactly for
    embeddings of two components or more: then they are the first two and
    the last two; a shorter embedding raises [IndexError]. *)
Theorem sample_bounds vec :
  (length vec < 2 → Embeddings.sample vec = Raise IndexError)
  ∧ (2 ≤ length vec →
     ∃ a b c d,
       Embeddings.sample vec = Ok (a, b, c, d)
       ∧ vec !! 0 = Some a ∧ vec !! 1 = Some b
       ∧ vec !! (length vec - 2) = Some c ∧ vec !! (length vec - 1) = Some d).
Proof.
  unfold Embeddings.sample. split.
  - intros H. destruct vec as [|a [|b vec]]; [done|done|simpl in H; lia].
  - intros H.
    destruct (getitem_in_range vec 0) as (a & -> & Ha); [lia|].
    destruct (getitem_in_range vec 1) as (b & -> & Hb); [lia|].
    destruct (getitem_in_range vec (-2)) as (c & -> & Hc); [lia|].
    destruct (getitem_in_range vec (-1)) as (d & -> & Hd); [lia|].
    exists a, b, c, d. split; [done|]. simpl in Ha, Hb, Hc, Hd.
    replace (Z.to_nat (-2 + Z.of_nat (length vec))) with (length vec - 2) in Hc by lia.
    replace (Z.to_nat (-1 + Z.of_nat (length vec))) with (length vec - 1) in Hd by lia.
    done.
Qed.

Lemma sample_bounds_witness :
  ∃ a b c d,
    Embeddings.sample [11; 22; 33]%N = Ok (a, b, c, d)
    ∧ [11; 22; 33]%N !! 0 = Some a ∧ [11; 22; 33]%N !! 1 = Some b
    ∧ [11; 22; 33]%N !! (length [11; 22; 33]%N - 2) = Some c
    ∧ [11; 22; 33]%N !! (length [11; 22; 33]%N - 1) = Some d.
Proof.
  apply (proj2 (sample_bounds [11; 22; 33]%N)). simpl. lia.
Defined.
End Items.

Section Traces.
Import Embeddings EmbeddingsRun.
Implicit Types (n : nat) (h : handle) (e : exn) (P : event → Prop).

Lemma emits_ret {A} P (a : A) : emits P (mret a).
Proof. intros n. constructor. Qed.

Lemma emits_lift {A} P (o : outcome A) : emits P (lift o).
Proof. intros n. constructor. Qed.

Lemma emits_emit P ev : P ev → emits P (emit ev).
Proof. intros H n. by repeat constructor. Qed.

Lemma emits_bind {A B} P (m : M A) (f : A → M B) :
  emits P m → (∀ a, emits P (f a)) → emits P (m ≫= f).
Proof.
  intros Hm Hf n. rewrite events_bind. apply Forall_app. split; [apply Hm|].
  destruct (returned (m n)); [apply Hf | constructor].
Qed.

Lemma emits_for_each {A} P (xs : list A) (body : A → M unit) :
  (∀ x, emits P (body x)) → emits P (for_each xs body).
Proof.
  intros Hb. induction xs as [|x xs IH]; [apply emits_ret|].
  simpl. apply emits_bind; [apply Hb | by intros _].
Qed.

(** A [with] block inside [try], with a handler that prints one line: the
    cell never raises; the block's events sit between the acquisition and
    the release; the line of the handler, if any, comes last. *)
Lemma guarded_with_shape (project_client : bool) get_client k
    (body : handle → M unit) (report : exn → line) n :
  (∀ h, emits body_event (body h)) →
  let cell := try_except (with_ (get_sub_client project_client get_client k) body)
                (fun e => print (report e)) in
  returned (cell n) = Ok tt
  ∧ ∃ middle tail,
      events (cell n)
      = (if acquires project_client get_client k
         then Entered {| kind := k; ident := n |} :: middle
              ++ [Closed {| kind := k; ident := n |}]
         else []) ++ tail
      ∧ Forall body_event middle
      ∧ (tail = [] ∨ ∃ e, tail = [Printed (report e)])
      ∧ (acquires project_client get_client k = false → tail ≠ []).
Proof.
  intros Hb. cbv zeta.
  unfold try_except, with_, get_sub_client, acquires, enter, exit_, print,
    mbind, mret, M_bind, M_ret, resume.
  destruct project_client; last first.
  { simpl. split; [done|]. exists [], [Printed (report NameError)].
    repeat split; eauto. }
  destruct (get_client k) as [[]|e]; simpl.
  2:{ split; [done|]. exists [], [Printed (report e)]. repeat split; eauto. }
  specialize (Hb {| kind := k; ident := n |} (S n)).
  destruct (body {| kind := k; ident := n |} (S n)) as [[[]|e] c evs]; simpl in *.
  - split; [done|]. exists evs, []. rewrite !app_nil_r.
    repeat split; eauto.
  - split; [done|]. exists evs, [Printed (report e)].
    split; [by rewrite <- !app_assoc|]. repeat split; eauto.
Qed.

Lemma emits_embed embed_reply h model inputs :
  emits body_event (embed embed_reply h model inputs).
Proof.
  unfold embed. apply emits_bind; [by apply emits_emit | intros _; apply emits_lift].
Qed.

(** X12: the text cell and the image cell never raise.  When a client was
    obtained, their events are its acquisition, then the request and the
    lines of the items, then its release; an error line is printed at most
    once and last, so after the client has been released; when no client
    was obtained, the error line is all there is. *)
Theorem cells_trace_shape settings project_client get_client embed_reply
    load_image n :
  (returned (embed_text_cell settings project_client get_client embed_reply n)
   = Ok tt
   ∧ ∃ middle tail,
       events (embed_text_cell settings project_client get_client embed_reply n)
       = (if acquires project_client get_client TextEmbeddings
          then Entered {| kind := TextEmbeddings; ident := n |} :: middle
               ++ [Closed {| kind := TextEmbeddings; ident := n |}]
          else []) ++ tail
       ∧ Forall body_event middle
       ∧ (tail = [] ∨ ∃ e, tail = [Printed (ErrorEmbeddingText e)])
       ∧ (acquires project_client get_client TextEmbeddings = false → tail ≠ []))
  ∧ (returned (embed_image_cell settings project_client get_client embed_reply
                 load_image n) = Ok tt
     ∧ ∃ middle tail,
         events (embed_image_cell settings project_client get_client embed_reply
                   load_image n)
         = (if acquires project_client get_client ImageEmbeddings
            then Entered {| kind := ImageEmbeddings; ident := n |} :: middle
                 ++ [Closed {| kind := ImageEmbeddings; ident := n |}]
            else []) ++ tail
         ∧ Forall body_event middle
         ∧ (tail = [] ∨ ∃ e, tail = [Printed (ErrorEmbeddingImage e)])
         ∧ (acquires project_client get_client ImageEmbeddings = false → tail ≠ [])).
Proof.
  split.
  - apply (guarded_with_shape project_client get_client TextEmbeddings _
             ErrorEmbeddingText n).
    intros h. apply emits_bind; [apply emits_embed|]. intros data.
    apply emits_for_each. intros item. cbv zeta.
    apply emits_bind; [apply emits_lift|]. intros sample_str.
    apply emits_bind; [apply emits_lift|]. intros phrase.
    by apply emits_emit.
  - apply (guarded_with_shape project_client get_client ImageEmbeddings _
             ErrorEmbeddingImage n).
    intros h. apply emits_bind; [apply emits_lift|]. intros img_input.
    apply emits_bind; [apply emits_embed|]. intros resp.
    apply emits_for_each. intros item. cbv zeta.
    apply emits_bind; [apply emits_lift|]. intros snippet.
    by apply emits_emit.
Qed.

Lemma sample_defined (vec : list float) :
  2 ≤ length vec → ∃ s, sample vec = Ok s.
Proof.
  intros H. unfold sample.
  destruct (getitem_in_range vec 0) as (a & -> & _); [lia|].
  destruct (getitem_in_range vec 1) as (b & -> & _); [lia|].
  destruct (getitem_in_range vec (-2)) as (c & -> & _); [lia|].
  destruct (getitem_in_range vec (-1)) as (d & -> & _); [lia|].
  by eexists.
Qed.

(** One printable item prints one sentence line. *)
Lemma print_item_line (item : Embeddings.item) n :
  printable item →
  ∃ phrase s,
    getitem text_phrases (index item) = Ok phrase
    ∧ sample (embedding item) = Ok s
    ∧ (sample_str ← lift (sample (embedding item));
       phrase ← lift (getitem text_phrases (index item));
       print (Sentence (index item) phrase (length (embedding item)) sample_str)) n
      = {| returned := Ok tt; counter := n;
           events := [Printed (Sentence (index item) phrase
                                 (length (embedding item)) s)] |}.
Proof.
  intros [Hlen Hidx].
  destruct (sample_defined (embedding item) Hlen) as (s & Hs).
  destruct (getitem_in_range text_phrases (index item)) as (phrase & Hp & _);
    [simpl; lia|].
  exists phrase, s. split; [done|]. split; [done|].
  unfold mbind, M_bind, resume, lift, print, emit. simpl. by rewrite Hs, Hp.
Qed.

Lemma print_item_fails (item : Embeddings.item) n :
  ¬ printable item →
  (sample_str ← lift (sample (embedding item));
   phrase ← lift (getitem text_phrases (index item));
   print (Sentence (index item) phrase (length (embedding item)) sample_str)) n
  = {| returned := Raise IndexError; counter := n; events := [] |}.
Proof.
  intros H. unfold mbind, M_bind, resume, lift, print, emit. simpl.
  destruct (decide (2 ≤ length (embedding item))) as [Hlen|Hlen].
  - destruct (sample_defined (embedding item) Hlen) as (s & ->). simpl.
    rewrite getitem_out_of_range; [done|].
    intros Hidx. apply H. split; [done|]. simpl in Hidx. lia.
  - assert (sample (embedding item) = Raise IndexError) as ->; [|done].
    unfold sample. destruct (embedding item) as [|a [|b vec]]; [done|done|].
    simpl in Hlen. lia.
Qed.

(** The loop over the items: a line for each item up to the first one that
    cannot be printed. *)
Lemma for_each_items (body : Embeddings.item → M unit) good n :
  (∀ item m, printable item →
     ∃ l, sentence_of item l
          ∧ body item m = {| returned := Ok tt; counter := m; events := [Printed l] |}) →
  (∀ item m, ¬ printable item →
     body item m = {| returned := Raise IndexError; counter := m; events := [] |}) →
  Forall printable good →
  ∃ lines,
    Forall2 sentence_of good lines
    ∧ for_each good body n
      = {| returned := Ok tt; counter := n; events := Printed <$> lines |}
    ∧ ∀ bad rest, ¬ printable bad →
        for_each (good ++ bad :: rest) body n
        = {| returned := Raise IndexError; counter := n;
             events := Printed <$> lines |}.
Proof.
  intros Hgood Hbad H. induction H as [|item good Hitem _ (lines & HR & E & E')].
  - exists []. split; [constructor|]. split; [done|].
    intros bad rest Hb. simpl. unfold mbind, M_bind, resume.
    by rewrite (Hbad bad n Hb).
  - destruct (Hgood item n Hitem) as (l & Hl & El).
    exists (l :: lines). split; [by constructor|].
    split.
    + simpl. unfold mbind, M_bind, resume. rewrite El. simpl. by rewrite E.
    + intros bad rest Hb. simpl. unfold mbind, M_bind, resume. rewrite El. simpl.
      by rewrite (E' bad rest Hb).
Qed.

(** X13: when the client is obtained and the response holds printable items
    only (an embedding of two components or more, an index from -3 to 2),
    the text cell prints one sentence line per item, in the order of the
    response, between the request and the release of the client, and no
    error line; the client counter advances by one. *)
Theorem text_cell_prints_every_item settings project_client get_client
    embed_reply n data :
  acquires project_client get_client TextEmbeddings = true →
  embed_reply TextEmbeddings (Settings.TEXT_EMBEDDING_MODEL settings)
    (TextInput <$> text_phrases) = Ok data →
  Forall printable data →
  ∃ lines,
    Forall2 sentence_of data lines
    ∧ embed_text_cell settings project_client get_client embed_reply n
      = {| returned := Ok tt; counter := S n;
           events :=
             Entered {| kind := TextEmbeddings; ident := n |}
             :: Embed {| kind := TextEmbeddings; ident := n |}
                  (Settings.TEXT_EMBEDDING_MODEL settings)
                  (TextInput <$> text_phrases)
             :: (Printed <$> lines)
             ++ [Closed {| kind := TextEmbeddings; ident := n |}] |}.
Proof.
  intros Ha Hr Hdata. unfold acquires in Ha.
  destruct project_client; [|done]. destruct (get_client TextEmbeddings) as [[]|] eqn:Hg;
    [|done].
  destruct (for_each_items
              (fun item =>
                 sample_str ← lift (sample (embedding item));
                 phrase ← lift (getitem text_phrases (index item));
                 print (Sentence (index item) phrase (length (embedding item))
                          sample_str))
              data (S n)
              (fun item m Hi =>
                 let '(ex_intro _ phrase (ex_intro _ s (conj Hp (conj Hs E)))) :=
                   print_item_line item m Hi in
                 ex_intro _ _ (conj (ex_intro _ phrase (ex_intro _ s
                                       (conj eq_refl (conj Hp Hs)))) E))
              print_item_fails Hdata) as (lines & HR & E & _).
  exists lines. split; [done|].
  unfold embed_text_cell. cbv zeta.
  match type of E with
  | for_each data ?b _ = _ => set (body := b) in *
  end.
  unfold try_except, with_, get_embeddings_client, get_sub_client,
    embed, enter, exit_, emit, lift, fresh, mbind, mret, M_bind, M_ret, resume.
  rewrite Hg. simpl. simpl in Hr. rewrite Hr. simpl. rewrite E. simpl.
  by rewrite app_nil_r.
Qed.

(** X14: when the response holds an item that cannot be printed (an
    embedding of fewer than two components, or an index outside -3..2), the
    text cell prints the sentence lines of the items before the first such
    item, releases the client, and then prints one error line carrying
    [IndexError]; the items after it are not printed, and the cell does not
    raise. *)
Theorem text_cell_stops_at_bad_item settings project_client get_client
    embed_reply n good bad rest :
  acquires project_client get_client TextEmbeddings = true →
  embed_reply TextEmbeddings (Settings.TEXT_EMBEDDING_MODEL settings)
    (TextInput <$> text_phrases) = Ok (good ++ bad :: rest) →
  Forall printable good →
  ¬ printable bad →
  ∃ lines,
    Forall2 sentence_of good lines
    ∧ embed_text_cell settings project_client get_client embed_reply n
      = {| returned := Ok tt; counter := S n;
           events :=
             Entered {| kind := TextEmbeddings; ident := n |}
             :: Embed {| kind := TextEmbeddings; ident := n |}
                  (Settings.TEXT_EMBEDDING_MODEL settings)
                  (TextInput <$> text_phrases)
             :: (Printed <$> lines)
             ++ [Closed {| kind := TextEmbeddings; ident := n |};
                 Printed (ErrorEmbeddingText IndexError)] |}.
Proof.
  intros Ha Hr Hgood Hbad. unfold acquires in Ha.
  destruct project_client; [|done]. destruct (get_client TextEmbeddings) as [[]|] eqn:Hg;
    [|done].
  destruct (for_each_items
              (fun item =>
                 sample_str ← lift (sample (embedding item));
                 phrase ← lift (getitem text_phrases (index item));
                 print (Sentence (index item) phrase (length (embedding item))
                          sample_str))
              good (S n)
              (fun item m Hi =>
                 let '(ex_intro _ phrase (ex_intro _ s (conj Hp (conj Hs E)))) :=
                   print_item_line item m Hi in
                 ex_intro _ _ (conj (ex_intro _ phrase (ex_intro _ s
                                       (conj eq_refl (conj Hp Hs)))) E))
              print_item_fails Hgood) as (lines & HR & _ & E).
  specialize (E bad rest Hbad).
  exists lines. split; [done|].
  unfold embed_text_cell. cbv zeta.
  match type of E with
  | for_each _ ?b _ = _ => set (body := b) in *
  end.
  unfold try_except, with_, get_embeddings_client, get_sub_client,
    embed, enter, exit_, emit, lift, fresh, mbind, mret, M_bind, M_ret, resume.
  rewrite Hg. simpl. simpl in Hr. rewrite Hr. simpl. rewrite E. simpl.
  by rewrite <- app_assoc.
Qed.

(** X15: a call of [embed_with_template] that obtains its client sends one
    request, for the one text made of the system template, a space and the
    user text, and has released the client before it looks at the response:
    it returns the embedding of the first item, raises [IndexError] on an
    empty response and raises what the remote call raised, in each case
    with the same three events and nothing printed. *)
Theorem embed_with_template_run settings project_client get_client embed_reply
    user_text n :
  acquires project_client get_client TextEmbeddings = true →
  embed_with_template settings project_client get_client embed_reply user_text n
  = {| returned :=
         match embed_reply TextEmbeddings (Settings.TEXT_EMBEDDING_MODEL settings)
                 [TextInput (TEMPLATE_SYSTEM ++ lit " " ++ user_text)] with
         | Ok (first :: _) => Ok (embedding first)
         | Ok [] => Raise IndexError
         | Raise e => Raise e
         end;
       counter := S n;
       events :=
         [ Entered {| kind := TextEmbeddings; ident := n |};
           Embed {| kind := TextEmbeddings; ident := n |}
             (Settings.TEXT_EMBEDDING_MODEL settings)
             [TextInput (TEMPLATE_SYSTEM ++ lit " " ++ user_text)];
           Closed {| kind := TextEmbeddings; ident := n |} ] |}.
Proof.
  intros Ha. unfold acquires in Ha.
  destruct project_client; [|done]. destruct (get_client TextEmbeddings) as [[]|] eqn:Hg;
    [|done].
  unfold embed_with_template. cbv zeta.
  set (content := TEMPLATE_SYSTEM ++ lit " " ++ user_text).
  unfold with_, get_embeddings_client, get_sub_client,
    embed, enter, exit_, emit, lift, fresh, mbind, mret, M_bind, M_ret, resume.
  rewrite Hg. cbn [returned counter events kind app].
  destruct (embed_reply TextEmbeddings (Settings.TEXT_EMBEDDING_MODEL settings)
              [TextInput content]) as [[|first data]|e]; reflexivity.
Qed.
End Traces.

Lemma text_cell_prints_every_item_witness :
  ∃ lines,
    Forall2 EmbeddingsRun.sentence_of
      [ {| Embeddings.index := 0; Embeddings.embedding := [1; 2; 3]%N |} ] lines
    ∧ Embeddings.events
        (Embeddings.embed_text_cell
           {| Settings.PROJECT_CONNECTION_STRING := [];
              Settings.TEXT_EMBEDDING_MODEL := lit "m";
              Settings.IMAGE_EMBEDDING_MODEL := [] |}
           true (fun _ => Ok tt)
           (fun _ _ _ =>
              Ok [ {| Embeddings.index := 0; Embeddings.embedding := [1; 2; 3]%N |} ])
           0)
      = Embeddings.Entered {| Embeddings.kind := Embeddings.TextEmbeddings;
                              Embeddings.ident := 0 |}
        :: Embeddings.Embed {| Embeddings.kind := Embeddings.TextEmbeddings;
                               Embeddings.ident := 0 |}
             (lit "m") (Embeddings.TextInput <$> Embeddings.text_phrases)
        :: (Embeddings.Printed <$> lines)
        ++ [Embeddings.Closed {| Embeddings.kind := Embeddings.TextEmbeddings;
                                 Embeddings.ident := 0 |}].
Proof.
  destruct (text_cell_prints_every_item
              {| Settings.PROJECT_CONNECTION_STRING := [];
                 Settings.TEXT_EMBEDDING_MODEL := lit "m";
                 Settings.IMAGE_EMBEDDING_MODEL := [] |}
              true (fun _ => Ok tt)
              (fun _ _ _ =>
                 Ok [ {| Embeddings.index := 0; Embeddings.embedding := [1; 2; 3]%N |} ])
              0 [ {| Embeddings.index := 0; Embeddings.embedding := [1; 2; 3]%N |} ])
    as (lines & HR & E).
  - reflexivity.
  - reflexivity.
  - repeat constructor; simpl; lia.
  - exists lines. split; [exact HR|]. by rewrite E.
Defined.

Lemma text_cell_stops_at_bad_item_witness :
  ∃ lines,
    Forall2 EmbeddingsRun.sentence_of [] lines
    ∧ Embeddings.events
        (Embeddings.embed_text_cell
           {| Settings.PROJECT_CONNECTION_STRING := [];
              Settings.TEXT_EMBEDDING_MODEL := lit "m";
              Settings.IMAGE_EMBEDDING_MODEL := [] |}
           true (fun _ => Ok tt)
           (fun _ _ _ =>
              Ok [ {| Embeddings.index := 0; Embeddings.embedding := [1]%N |};
                   {| Embeddings.index := 1; Embeddings.embedding := [1; 2]%N |} ])
           0)
      = Embeddings.Entered {| Embeddings.kind := Embeddings.TextEmbeddings;
                              Embeddings.ident := 0 |}
        :: Embeddings.Embed {| Embeddings.kind := Embeddings.TextEmbeddings;
                               Embeddings.ident := 0 |}
             (lit "m") (Embeddings.TextInput <$> Embeddings.text_phrases)
        :: (Embeddings.Printed <$> lines)
        ++ [Embeddings.Closed {| Embeddings.kind := Embeddings.TextEmbeddings;
                                 Embeddings.ident := 0 |};
            Embeddings.Printed (Embeddings.ErrorEmbeddingText IndexError)].
Proof.
  destruct (text_cell_stops_at_bad_item
              {| Settings.PROJECT_CONNECTION_STRING := [];
                 Settings.TEXT_EMBEDDING_MODEL := lit "m";
                 Settings.IMAGE_EMBEDDING_MODEL := [] |}
              true (fun _ => Ok tt)
              (fun _ _ _ =>
                 Ok [ {| Embeddings.index := 0; Embeddings.embedding := [1]%N |};
                      {| Embeddings.index := 1; Embeddings.embedding := [1; 2]%N |} ])
              0 []
              {| Embeddings.index := 0; Embeddings.embedding := [1]%N |}
              [ {| Embeddings.index := 1; Embeddings.embedding := [1; 2]%N |} ])
    as (lines & HR & E).
  - reflexivity.
  - reflexivity.
  - constructor.
  - intros [H _]. simpl in H. lia.
  - exists lines. split; [exact HR|]. by rewrite E.
Defined.

Lemma embed_with_template_run_witness :
  Embeddings.returned
    (Embeddings.embed_with_template
       {| Settings.PROJECT_CONNECTION_STRING := [];
          Settings.TEXT_EMBEDDING_MODEL := lit "m";
          Settings.IMAGE_EMBEDDING_MODEL := [] |}
       true (fun _ => Ok tt) (fun _ _ _ => Ok []) (lit "hello") 0)
  = Raise IndexError.
Proof.
  rewrite (embed_with_template_run
             {| Settings.PROJECT_CONNECTION_STRING := [];
                Settings.TEXT_EMBEDDING_MODEL := lit "m";
                Settings.IMAGE_EMBEDDING_MODEL := [] |}
             true (fun _ => Ok tt) (fun _ _ _ => Ok []) (lit "hello") 0 eq_refl).
  reflexivity.
Defined.

Section Runs.
Import Embeddings EmbeddingsRun.
Implicit Types (n : nat) (h : handle) (e : exn).

Lemma inert_ret {A} (a : A) : inert (mret a).
Proof. by intros n. Qed.

Lemma inert_lift {A} (o : outcome A) : inert (lift o).
Proof. by intros n. Qed.

Lemma inert_print l : inert (print l).
Proof. by intros n. Qed.

Lemma inert_embed embed_reply h model inputs :
  inert (embed embed_reply h model inputs).
Proof. by intros n. Qed.

Lemma inert_bind {A B} (m : M A) (f : A → M B) :
  inert m → (∀ a, inert (f a)) → inert (m ≫= f).
Proof.
  intros Hm Hf n. destruct (Hm n) as [Hs Hc].
  rewrite events_bind, counter_bind, sessions_app, Hs.
  destruct (returned (m n)) as [a|e]; [|done].
  rewrite Hc. apply Hf.
Qed.

Lemma inert_for_each {A} (xs : list A) (body : A → M unit) :
  (∀ x, inert (body x)) → inert (for_each xs body).
Proof.
  intros Hb. induction xs as [|x xs IH]; [apply inert_ret|].
  simpl. apply inert_bind; [apply Hb | by intros _].
Qed.

Lemma tidy_inert {A} (m : M A) : inert m → tidy m.
Proof.
  intros H n. destruct (H n) as [Hs Hc]. exists []. rewrite Hs, Hc. simpl.
  split; [done|]. split; [done | lia].
Qed.

(** Two tidy runs, one after the other. *)
Lemma tidy_resume {A B} (r : run A) (k : outcome A → M B) n :
  (∃ hs, sessions (events r) = hs ≫= one_session
         ∧ ident <$> hs = seq n (length hs) ∧ counter r = n + length hs) →
  (∀ o, tidy (k o)) →
  ∃ hs, sessions (events (resume r k)) = hs ≫= one_session
        ∧ ident <$> hs = seq n (length hs)
        ∧ counter (resume r k) = n + length hs.
Proof.
  intros (hs1 & S1 & I1 & C1) Hk.
  destruct (Hk (returned r) (counter r)) as (hs2 & S2 & I2 & C2).
  exists (hs1 ++ hs2). unfold resume. simpl.
  rewrite sessions_app, S1, S2, bind_app, fmap_app, I1, I2, C2, C1, length_app.
  split; [done|]. split; [by rewrite seq_app | lia].
Qed.

Lemma tidy_bind {A B} (m : M A) (f : A → M B) :
  tidy m → (∀ a, tidy (f a)) → tidy (m ≫= f).
Proof.
  intros Hm Hf n. unfold mbind, M_bind. apply tidy_resume; [apply Hm|].
  intros [a|e]; [apply Hf|]. by apply tidy_inert.
Qed.

Lemma tidy_try_except {A} (body : M A) (handler : exn → M A) :
  tidy body → (∀ e, tidy (handler e)) → tidy (try_except body handler).
Proof.
  intros Hb Hh n. unfold try_except. apply tidy_resume; [apply Hb|].
  intros [a|e]; [|apply Hh]. by apply tidy_inert.
Qed.

Lemma tidy_for_each {A} (xs : list A) (body : A → M unit) :
  (∀ x, tidy (body x)) → tidy (for_each xs body).
Proof.
  intros Hb. induction xs as [|x xs IH]; [by apply tidy_inert|].
  simpl. apply tidy_bind; [apply Hb | by intros _].
Qed.

Lemma tidy_with {A} (project_client : bool) get_client k (body : handle → M A) :
  (∀ h, inert (body h)) →
  tidy (with_ (get_sub_client project_client get_client k) body).
Proof.
  intros Hb n.
  unfold with_, get_sub_client, enter, exit_, mbind, mret, M_bind, M_ret, resume.
  destruct project_client;
    [|exists []; simpl; split; [done|]; split; [done | lia]].
  destruct (get_client k) as [[]|e]; simpl;
    [|exists []; simpl; split; [done|]; split; [done | lia]].
  destruct (Hb {| kind := k; ident := n |} (S n)) as [Hs Hc].
  exists [ {| kind := k; ident := n |} ].
  destruct (body {| kind := k; ident := n |} (S n)) as [[a|e] c evs]; simpl in *;
    subst c.
  - split; [|split; [done | lia]].
    change (sessions (Entered {| kind := k; ident := n |} :: (evs ++ [Closed {| kind := k; ident := n |}])) = one_session {| kind := k; ident := n |} ++ []).
    change (Entered {| kind := k; ident := n |} :: sessions (evs ++ [Closed {| kind := k; ident := n |}]) = one_session {| kind := k; ident := n |} ++ []).
    by rewrite sessions_app, Hs.
  - split; [|split; [done | lia]].
    change (Entered {| kind := k; ident := n |} :: sessions (evs ++ [Closed {| kind := k; ident := n |}]) = one_session {| kind := k; ident := n |} ++ []).
    by rewrite sessions_app, Hs.
Qed.
End Runs.

(** X16: however the text cell, calls of [embed_with_template] and the
    image cell are run one after the other (the run stops at the first call
    that raises), the acquisitions and releases form complete sessions, one
    after the other and never nested, each on a client object of its own:
    no client is left open, and no two are open at the same time. *)
Theorem runs_never_overlap settings project_client get_client embed_reply
    load_image steps n :
  ∃ hs,
    Embeddings.sessions
      (Embeddings.events
         (EmbeddingsRun.run_steps settings project_client get_client embed_reply
            load_image steps n))
    = hs ≫= Embeddings.one_session
    ∧ Embeddings.ident <$> hs = seq n (length hs)
    ∧ Embeddings.counter
        (EmbeddingsRun.run_steps settings project_client get_client embed_reply
           load_image steps n)
      = n + length hs.
Proof.
  revert n. change (EmbeddingsRun.tidy
    (EmbeddingsRun.run_steps settings project_client get_client embed_reply
       load_image steps)).
  apply tidy_for_each. intros [|user_text|]; simpl.
  - apply tidy_try_except; [|intros e; apply tidy_inert, inert_print].
    apply tidy_with. intros h.
    apply inert_bind; [apply inert_embed|]. intros data.
    apply inert_for_each. intros item. cbv zeta.
    apply inert_bind; [apply inert_lift|]. intros sample_str.
    apply inert_bind; [apply inert_lift|]. intros phrase. apply inert_print.
  - apply tidy_bind; [|intros _; apply tidy_inert, inert_ret].
    unfold Embeddings.embed_with_template. cbv zeta.
    apply tidy_bind; [apply tidy_with; intros h; apply inert_embed|].
    intros rsp. apply tidy_inert.
    apply inert_bind; [apply inert_lift | intros first; apply inert_ret].
  - apply tidy_try_except; [|intros e; apply tidy_inert, inert_print].
    apply tidy_with. intros h.
    apply inert_bind; [apply inert_lift|]. intros img_input.
    apply inert_bind; [apply inert_embed|]. intros resp.
    apply inert_for_each. intros item. cbv zeta.
    apply inert_bind; [apply inert_lift|]. intros snippet. apply inert_print.
Qed.

Section FirstCell.
Import Embeddings EmbeddingsRun.
Context {Credential Client : Type}.
Variable DefaultAzureCredential : outcome Credential.
Variable from_connection_string : Credential → str → outcome Client.

(** X17: the first cell of the embeddings notebook never raises, and leaves
    [project_client] unbound exactly when the construction of the credential
    or of the project client raised.  With [project_client] unbound, the
    text cell and the image cell print one error line carrying [NameError]
    and nothing else, and a call of [embed_with_template] raises
    [NameError]; no sub-client is asked for. *)
Theorem unbound_project_client settings get_client embed_reply load_image
    user_text n :
  let project_client :=
    is_bound (create_project_client DefaultAzureCredential from_connection_string
                settings).1 in
  (project_client = false
   ↔ (∃ e, DefaultAzureCredential = Raise e)
     ∨ (∃ cred e,
          DefaultAzureCredential = Ok cred
          ∧ from_connection_string cred
              (Settings.PROJECT_CONNECTION_STRING settings) = Raise e))
  ∧ (project_client = false →
     embed_text_cell settings project_client get_client embed_reply n
     = {| returned := Ok tt; counter := n;
          events := [Printed (ErrorEmbeddingText NameError)] |}
     ∧ embed_image_cell settings project_client get_client embed_reply load_image n
       = {| returned := Ok tt; counter := n;
            events := [Printed (ErrorEmbeddingImage NameError)] |}
     ∧ embed_with_template settings project_client get_client embed_reply
         user_text n
       = {| returned := Raise NameError; counter := n; events := [] |}).
Proof.
  cbv zeta. unfold create_project_client. split.
  - destruct DefaultAzureCredential as [cred|e]; cbn [mbind outcome_bind].
    + destruct (from_connection_string cred _) as [c|e] eqn:E; cbn.
      * split; [done|]. intros [[e ?]|(cred' & e & [= <-] & E')]; congruence.
      * split; [|done]. intros _. right. by exists cred, e.
    + cbn. split; [|done]. intros _. left. by exists e.
  - intros ->. done.
Qed.

End FirstCell.

(** ** The technical-problem prompt *)



(** ** The theme provider *)
Section ThemeProvider.
Import Theme.
Implicit Types (p : page) (m : mounted) (t : name) (tokens : list str).

Lemma classList_add_valid tokens token :
  token ≠ [] → existsb ascii_whitespace token = false →
  classList_add tokens token
  = inr (if decide (token ∈ tokens) then tokens else tokens ++ [token]).
Proof.
  intros H1 H2. unfold classList_add. by rewrite decide_False, H2.
Qed.

Lemma elem_of_classList_remove tokens removed s :
  s ∈ classList_remove tokens removed ↔ (s ∉ removed) ∧ (s ∈ tokens).
Proof. unfold classList_remove. by rewrite list_elem_of_filter. Qed.

(** Adding a scheme class right after both scheme classes were removed
    appends it. *)
Lemma add_after_remove tokens s :
  s ∈ [lit "light"; lit "dark"] →
  classList_add (classList_remove tokens [lit "light"; lit "dark"]) s
  = inr (classList_remove tokens [lit "light"; lit "dark"] ++ [s]).
Proof.
  intros Hs. rewrite classList_add_valid.
  - rewrite decide_False; [done|]. rewrite elem_of_classList_remove. tauto.
  - apply elem_of_cons in Hs as [->|Hs]; [done|].
    apply list_elem_of_singleton in Hs as ->. done.
  - apply elem_of_cons in Hs as [->|Hs]; [done|].
    apply list_elem_of_singleton in Hs as ->. done.
Qed.

Lemma scheme_of_name t p : scheme (text t) p ∈ [lit "light"; lit "dark"].
Proof.
  unfold scheme. destruct t; cbn [text].
  - rewrite decide_False by by_decision. by_decision.
  - rewrite decide_False by by_decision. by_decision.
  - rewrite decide_True by done. destruct (prefers_dark p); by_decision.
Qed.

(** The effect for one of the three themes. *)
Lemma effect_of_name t p :
  effect (text t) p
  = ({| classList :=
          classList_remove (classList p) [lit "light"; lit "dark"]
          ++ [scheme (text t) p];
        colorScheme := Some (scheme (text t) p);
        storage := <[lit "theme" := text t]> (storage p);
        prefers_dark := prefers_dark p;
        listeners := if decide (text t = lit "system")
                     then S (listeners p) else listeners p |}, None).
Proof.
  unfold effect. cbv zeta. pose proof (scheme_of_name t p) as Hs.
  unfold scheme in *. destruct (decide (text t = lit "system")) as [E|E].
  - rewrite add_after_remove by done. by rewrite E.
  - by rewrite add_after_remove.
Qed.

(** X20: a theme that the effect has applied without exception is the
    theme that the next mount starts from, whatever its default: the effect
    saves the theme and the initializer reads it back. *)
Theorem saved_theme_is_restored theme p defaultTheme :
  (effect theme p).2 = None →
  initial_theme defaultTheme (effect theme p).1 = theme.
Proof.
  unfold effect, initial_theme. cbv zeta.
  destruct (decide (theme = lit "system")) as [->|Hsys].
  - rewrite add_after_remove by (destruct (prefers_dark p); by_decision).
    intros _. cbn [fst storage]. by rewrite lookup_insert_eq.
  - destruct (classList_add _ theme) as [e|tokens] eqn:E; [done|].
    intros _. cbn [fst storage]. rewrite lookup_insert_eq.
    unfold classList_add in E. destruct (decide (theme = [])); [done|].
    by destruct theme.
Qed.

Lemma saved_theme_is_restored_witness :
  initial_theme (lit "system") (effect (lit "dark")
    {| classList := [lit "app"]; colorScheme := None; storage := ∅;
       prefers_dark := false; listeners := 0 |}).1 = lit "dark".
Proof.
  apply (saved_theme_is_restored (lit "dark")
           {| classList := [lit "app"]; colorScheme := None; storage := ∅;
              prefers_dark := false; listeners := 0 |} (lit "system")).
  vm_compute. reflexivity.
Defined.

(** X21: for each of the three themes the effect throws nothing and leaves
    the root element with the class of the theme's colour scheme ("dark" or
    "light"; for "system", the one that the system prefers) and without the
    other one, keeps every other class, and sets the colour scheme of the
    body and the saved theme accordingly. *)
Theorem effect_sets_one_scheme_class t p :
  ∃ p',
    effect (text t) p = (p', None)
    ∧ scheme (text t) p ∈ classList p'
    ∧ (∀ s, s ∈ [lit "light"; lit "dark"] → s ∈ classList p' →
         s = scheme (text t) p)
    ∧ (∀ s, s ∉ [lit "light"; lit "dark"] → s ∈ classList p' ↔ s ∈ classList p)
    ∧ colorScheme p' = Some (scheme (text t) p)
    ∧ storage p' !! lit "theme" = Some (text t).
Proof.
  rewrite effect_of_name. eexists. split; [reflexivity|]. cbn [classList
    colorScheme storage].
  split; [|split; [|split; [|split]]].
  - apply elem_of_app. right. apply list_elem_of_here.
  - intros s Hs [Hin|Hin]%elem_of_app.
    + apply elem_of_classList_remove in Hin. tauto.
    + by apply list_elem_of_singleton in Hin.
  - intros s Hs. rewrite elem_of_app, elem_of_classList_remove,
      list_elem_of_singleton.
    pose proof (scheme_of_name t p). split; [|tauto].
    intros [[_ ?]| ->]; [done|]. by destruct Hs.
  - done.
  - apply lookup_insert_eq.
Qed.

Lemma effect_sets_one_scheme_class_witness :
  ∃ p',
    effect (lit "system")
      {| classList := [lit "app"; lit "light"]; colorScheme := None; storage := ∅;
         prefers_dark := true; listeners := 0 |} = (p', None)
    ∧ lit "dark" ∈ classList p'
    ∧ lit "light" ∉ classList p'.
Proof.
  destruct (effect_sets_one_scheme_class system
              {| classList := [lit "app"; lit "light"]; colorScheme := None;
                 storage := ∅; prefers_dark := true; listeners := 0 |})
    as (p' & E & Hin & Hone & _).
  exists p'. split; [exact E|]. split; [exact Hin|].
  intros H. apply Hone in H; [|by_decision]. revert H. by_decision.
Defined.

(** X22: the effect throws exactly for a theme that is empty
    ([SyntaxError]) or holds ASCII white space ([InvalidCharacterError]),
    as a corrupted saved theme may; it has then removed both scheme classes
    from the root element and changed nothing else. *)
Theorem effect_throws_iff theme p e :
  ((effect theme p).2 = Some e
   ↔ (theme = [] ∧ e = SyntaxError)
     ∨ (theme ≠ [] ∧ existsb ascii_whitespace theme = true
        ∧ e = InvalidCharacterError))
  ∧ ((effect theme p).2 = Some e →
     (effect theme p).1
     = {| classList := classList_remove (classList p) [lit "light"; lit "dark"];
          colorScheme := colorScheme p; storage := storage p;
          prefers_dark := prefers_dark p; listeners := listeners p |}).
Proof.
  unfold effect. cbv zeta.
  destruct (decide (theme = lit "system")) as [->|Hsys].
  - rewrite add_after_remove by (destruct (prefers_dark p); by_decision).
    cbn [snd]. split; [|done]. split; [done|].
    intros [[H _]|(_ & H & _)]; [done|]. revert H. by_decision.
  - unfold classList_add.
    destruct (decide (theme = [])) as [->|Hne]; cbn [fst snd].
    + split; [|done]. split; [intros [= <-]; by left|].
      by intros [[_ ->]|(H & _)].
    + destruct (existsb ascii_whitespace theme) eqn:Hws; cbn [fst snd].
      * split; [|done]. split; [intros [= <-]; by right|].
        by intros [[H _]|(_ & _ & ->)].
      * split; [|done]. split; [done|]. by intros [[H _]|(_ & H & _)].
Qed.

Lemma effect_throws_iff_witness :
  (effect (lit "my theme")
     {| classList := [lit "light"]; colorScheme := None; storage := ∅;
        prefers_dark := false; listeners := 0 |}).2 = Some InvalidCharacterError.
Proof.
  apply (proj1 (effect_throws_iff (lit "my theme")
                  {| classList := [lit "light"]; colorScheme := None; storage := ∅;
                     prefers_dark := false; listeners := 0 |} InvalidCharacterError)).
  right. split; [done|]. split; [vm_compute; reflexivity | reflexivity].
Defined.

Lemma handleChange_run matches p :
  handleChange matches p
  = ({| classList :=
          classList_remove (classList p) [lit "light"; lit "dark"]
          ++ [if matches then lit "dark" else lit "light"];
        colorScheme := colorScheme p; storage := storage p;
        prefers_dark := prefers_dark p; listeners := listeners p |}, None).
Proof.
  unfold handleChange. cbv zeta.
  by rewrite add_after_remove by (destruct matches; by_decision).
Qed.

(** A page whose class list was just rebuilt for the scheme of the theme. *)
Lemma rebuilt_in_sync t tokens cs st pd n :
  st !! lit "theme" = Some (text t) →
  n = (if decide (text t = lit "system") then 1 else 0) →
  in_sync {| theme := text t;
             dom := {| classList :=
                         classList_remove tokens [lit "light"; lit "dark"]
                         ++ [scheme (text t)
                               {| classList := []; colorScheme := None;
                                  storage := ∅; prefers_dark := pd;
                                  listeners := 0 |}];
                       colorScheme := cs; storage := st; prefers_dark := pd;
                       listeners := n |} |}.
Proof.
  intros Hst Hn. unfold in_sync, scheme.
  cbn [theme dom classList storage listeners prefers_dark].
  split; [by exists t|]. split; [|split; [|done]].
  - apply elem_of_app. right. apply list_elem_of_here.
  - intros s Hs [Hin|Hin]%elem_of_app.
    + apply elem_of_classList_remove in Hin. tauto.
    + by apply list_elem_of_singleton in Hin.
Qed.

Lemma setTheme_in_sync t m :
  in_sync m → ∃ m', setTheme (text t) m = (m', None) ∧ in_sync m'.
Proof.
  intros Hm. unfold setTheme.
  destruct (decide (text t = theme m)) as [E|E]; [by exists m|].
  rewrite effect_of_name. eexists. split; [reflexivity|].
  destruct Hm as (_ & _ & _ & _ & Hl).
  assert (listeners (cleanup (theme m) (dom m)) = 0) as Hl0.
  { unfold cleanup. destruct (decide (theme m = lit "system")); cbn; by rewrite Hl. }
  assert (prefers_dark (cleanup (theme m) (dom m)) = prefers_dark (dom m)) as Hpd.
  { unfold cleanup. by destruct (decide (theme m = lit "system")). }
  rewrite Hl0.
  replace (scheme (text t) (cleanup (theme m) (dom m)))
    with (scheme (text t) {| classList := []; colorScheme := None; storage := ∅;
                             prefers_dark := prefers_dark (cleanup (theme m) (dom m));
                             listeners := 0 |})
    by (unfold scheme; by destruct (decide _)).
  apply rebuilt_in_sync; [apply lookup_insert_eq | done].
Qed.

Lemma media_change_in_sync matches m :
  in_sync m →
  ∃ m', media_change matches m = (m', None) ∧ in_sync m'
        ∧ theme m' = theme m
        ∧ prefers_dark (dom m') = matches
        ∧ colorScheme (dom m') = colorScheme (dom m).
Proof.
  intros ([t Ht] & Hin & Hone & Hst & Hl). unfold media_change. cbv zeta.
  cbn [listeners]. rewrite Hl.
  destruct (decide (theme m = lit "system")) as [E|E].
  - cbn [notify]. rewrite handleChange_run. cbn [notify classList colorScheme
      storage prefers_dark listeners].
    eexists. split; [reflexivity|]. cbn [theme dom prefers_dark colorScheme].
    split; [|done]. rewrite Ht.
    replace (if matches then lit "dark" else lit "light")
      with (scheme (text t) {| classList := []; colorScheme := None; storage := ∅;
                               prefers_dark := matches; listeners := 0 |})
      by (unfold scheme; rewrite <- Ht, decide_True by done; done).
    apply rebuilt_in_sync; [by rewrite <- Ht | by rewrite <- Ht, decide_True].
  - cbn [notify]. eexists. split; [reflexivity|].
    cbn [theme dom prefers_dark colorScheme]. split; [|done].
    assert (∀ q, scheme (theme m) q = theme m) as Hq.
    { intros q. unfold scheme. by rewrite decide_False. }
    unfold in_sync. cbn [theme dom classList storage listeners].
    rewrite Hq in *. split; [by exists t|]. split; [done|].
    split; [done|]. split; [done|]. by rewrite decide_False.
Qed.

(** X23: while the theme is "system" and the page mirrors the state, a
    change of the system preference throws nothing and switches the class
    of the root element to the new preference, but never touches the colour
    scheme of the body: when the preference really changes, the body keeps
    the scheme that no longer matches the class. *)
Theorem media_change_leaves_color_scheme matches m :
  in_sync m → theme m = lit "system" →
  ∃ m',
    media_change matches m = (m', None)
    ∧ in_sync m'
    ∧ scheme (theme m') (dom m') = (if matches then lit "dark" else lit "light")
    ∧ scheme (theme m') (dom m') ∈ classList (dom m')
    ∧ colorScheme (dom m') = colorScheme (dom m)
    ∧ (matches ≠ prefers_dark (dom m) →
       colorScheme (dom m) = Some (scheme (theme m) (dom m)) →
       colorScheme (dom m') ≠ Some (scheme (theme m') (dom m'))).
Proof.
  intros Hm Hsys.
  destruct (media_change_in_sync matches m Hm) as (m' & E & Hm' & Ht & Hpd & Hcs).
  exists m'. split; [done|]. split; [done|].
  assert (scheme (theme m') (dom m') = (if matches then lit "dark" else lit "light"))
    as Hs.
  { unfold scheme. by rewrite Ht, Hsys, decide_True, Hpd. }
  split; [done|]. split; [by destruct Hm' as (_ & ? & _)|]. split; [done|].
  intros Hflip Hold. rewrite Hcs, Hold, Hs. unfold scheme.
  rewrite Hsys, decide_True by done.
  destruct matches, (prefers_dark (dom m)); try done; intros [= H]; revert H;
    by_decision.
Qed.

(** X24: once the page mirrors the state, it keeps doing so through every
    sequence of [setTheme] calls with one of the three themes and of
    changes of the system preference, and none of them throws: the root
    element always carries the class of the current scheme and not the
    other one, local storage holds the current theme, and a listener is
    registered exactly while the theme is "system".  A mount on a page
    without listener does the same, when the saved theme is one of the
    three, empty or absent. *)
Theorem run_keeps_in_sync :
  (∀ actions m, in_sync m → ∃ m', run actions m = (m', None) ∧ in_sync m')
  ∧ (∀ d p,
       listeners p = 0 →
       (storage p !! lit "theme" = None ∨ storage p !! lit "theme" = Some []
        ∨ ∃ t, storage p !! lit "theme" = Some (text t)) →
       ∃ m, mount (text d) p = (m, None) ∧ in_sync m).
Proof.
  split.
  - intros actions. induction actions as [|a actions IH]; intros m Hm.
    + by exists m.
    + assert (∃ m1, step a m = (m1, None) ∧ in_sync m1) as (m1 & E & Hm1).
      { destruct a as [t|matches]; simpl.
        - by apply setTheme_in_sync.
        - destruct (media_change_in_sync matches m Hm) as (m' & ? & ? & _).
          by exists m'. }
      simpl. rewrite E. by apply IH.
  - intros d p Hl Hsaved. unfold mount. cbv zeta.
    assert (∃ t, initial_theme (text d) p = text t) as [t ->].
    { unfold initial_theme. destruct Hsaved as [->| [->|[t ->]]];
        [by exists d | by exists d |].
      exists t. by destruct t. }
    rewrite effect_of_name. eexists. split; [reflexivity|]. rewrite Hl.
    replace (scheme (text t) p)
      with (scheme (text t) {| classList := []; colorScheme := None; storage := ∅;
                               prefers_dark := prefers_dark p; listeners := 0 |})
      by (unfold scheme; by destruct (decide _)).
    apply rebuilt_in_sync; [apply lookup_insert_eq | done].
Qed.
End ThemeProvider.

Lemma cells_trace_shape_witness :
  ∃ tail,
    Embeddings.events
      (Embeddings.embed_text_cell
         {| Settings.PROJECT_CONNECTION_STRING := [];
            Settings.TEXT_EMBEDDING_MODEL := lit "m";
            Settings.IMAGE_EMBEDDING_MODEL := [] |}
         false (fun _ => Ok tt) (fun _ _ _ => Ok []) 0) = tail
    ∧ tail ≠ [].
Proof.
  destruct (cells_trace_shape
              {| Settings.PROJECT_CONNECTION_STRING := [];
                 Settings.TEXT_EMBEDDING_MODEL := lit "m";
                 Settings.IMAGE_EMBEDDING_MODEL := [] |}
              false (fun _ => Ok tt) (fun _ _ _ => Ok [])
              (fun _ _ => Raise IndexError) 0)
    as [(_ & middle & tail & E & _ & _ & Hne) _].
  exists tail. split; [exact E | apply Hne; reflexivity].
Defined.

Lemma unbound_project_client_witness :
  Embeddings.embed_with_template
    {| Settings.PROJECT_CONNECTION_STRING := lit "<your-connection-string>";
       Settings.TEXT_EMBEDDING_MODEL := lit "m";
       Settings.IMAGE_EMBEDDING_MODEL := [] |}
    (EmbeddingsRun.is_bound
       (EmbeddingsRun.create_project_client (Credential := unit) (Client := unit)
          (Ok tt) (fun _ _ => Raise (SdkError (lit "Invalid connection string format")))
          {| Settings.PROJECT_CONNECTION_STRING := lit "<your-connection-string>";
             Settings.TEXT_EMBEDDING_MODEL := lit "m";
             Settings.IMAGE_EMBEDDING_MODEL := [] |}).1)
    (fun _ => Ok tt) (fun _ _ _ => Ok []) (lit "hello") 0
  = {| Embeddings.returned := Raise NameError; Embeddings.counter := 0;
       Embeddings.events := [] |}.
Proof.
  destruct (unbound_project_client (Credential := unit) (Client := unit)
              (Ok tt) (fun _ _ => Raise (SdkError (lit "Invalid connection string format")))
              {| Settings.PROJECT_CONNECTION_STRING := lit "<your-connection-string>";
                 Settings.TEXT_EMBEDDING_MODEL := lit "m";
                 Settings.IMAGE_EMBEDDING_MODEL := [] |}
              (fun _ => Ok tt) (fun _ _ _ => Ok []) (fun _ _ => Raise IndexError)
              (lit "hello") 0) as [Hiff Hcells].
  apply Hcells. apply Hiff. right. by eexists tt, _.
Defined.


Lemma media_change_leaves_color_scheme_witness :
  ∃ m',
    Theme.media_change true
      {| Theme.theme := lit "system";
         Theme.dom := {| Theme.classList := [lit "light"];
                         Theme.colorScheme := Some (lit "light");
                         Theme.storage := {[ lit "theme" := lit "system" ]};
                         Theme.prefers_dark := false; Theme.listeners := 1 |} |}
    = (m', None)
    ∧ lit "dark" ∈ Theme.classList (Theme.dom m')
    ∧ Theme.colorScheme (Theme.dom m') = Some (lit "light").
Proof.
  destruct (media_change_leaves_color_scheme true
              {| Theme.theme := lit "system";
                 Theme.dom := {| Theme.classList := [lit "light"];
                                 Theme.colorScheme := Some (lit "light");
                                 Theme.storage := {[ lit "theme" := lit "system" ]};
                                 Theme.prefers_dark := false;
                                 Theme.listeners := 1 |} |})
    as (m' & E & _ & Hs & Hin & Hcs & _).
  - apply (rebuilt_in_sync Theme.system [] (Some (lit "light"))
             {[ lit "theme" := lit "system" ]} false 1).
    + apply lookup_singleton_eq.
    + reflexivity.
  - reflexivity.
  - exists m'. split; [exact E|]. split; [by rewrite <- Hs | by rewrite Hcs].
Defined.

Lemma run_keeps_in_sync_witness :
  ∃ m,
    Theme.mount (lit "system")
      {| Theme.classList := []; Theme.colorScheme := None; Theme.storage := ∅;
         Theme.prefers_dark := true; Theme.listeners := 0 |} = (m, None)
    ∧ Theme.in_sync m.
Proof.
  apply (proj2 run_keeps_in_sync Theme.system
           {| Theme.classList := []; Theme.colorScheme := None; Theme.storage := ∅;
              Theme.prefers_dark := true; Theme.listeners := 0 |}).
  - reflexivity.
  - left. apply lookup_empty.
Defined.
